(** * react-native-tour-pilot: the tour engine, embedded and verified

    A shallow embedding of [src/TourProvider.tsx] (step registry, placement
    geometry, navigation state machine) and [src/eventEmitter.ts] (the event
    bus), with the properties of the specification proved about it.

    Conventions of the embedding:
    - a JavaScript [number] is an exact rational ([Q]); NaN, the infinities
      and rounding are outside the model;
    - a plain object used as a dictionary is a list of entries kept in the
      order in which [Object.values] enumerates them;
    - React state and refs of a component are fields of one record, and every
      callback is a function from that record to the next one; a callback
      reads the render it was created in, which is the record it is given;
    - [console.warn], [console.error] and [events.emit] append to logs. *)

From Stdlib Require Import QArith Qabs Qminmax Qround Lqa Lia ZArith Ascii String Sorted.
From stdpp Require Import gmap strings list.

Set Default Proof Using "Type".

(** ** Numbers *)

Definition number : Type := Q.

(** [a > b] and [a < b] on numbers, as booleans. *)
Definition gtb (a b : number) : bool := negb (Qle_bool a b).
Definition ltb (a b : number) : bool := negb (Qle_bool b a).

(** [Math.min] of three arguments, [Math.max] of two, [Math.floor]. *)
Definition Math_min3 (a b c : number) : number := Qmin (Qmin a b) c.
Definition Math_max (a b : number) : number := Qmax a b.
Definition Math_floor (a : number) : number := inject_Z (Qfloor a).

(** [a ?? b] *)
Definition nullish {A : Type} (a : option A) (b : A) : A :=
  match a with Some v => v | None => b end.

(** ** Types of [src/types.ts] *)

Inductive MaskShape : Type := circle | rectangle | rounded_rectangle.

Module LayoutRect.
Record t : Type := mk { x : number; y : number; width : number; height : number }.
End LayoutRect.

Module ValueXY.
Record t : Type := mk { x : number; y : number }.
End ValueXY.

(** ** Constants of [TourProvider.tsx] *)

Definition STEP_NUMBER_RADIUS : number := 14%Q.
Definition STEP_NUMBER_DIAMETER : number := (STEP_NUMBER_RADIUS * 2)%Q.
Definition DEFAULT_MARGIN : number := 13%Q.
Definition DEFAULT_HIGHLIGHT_PADDING : number := 4%Q.
Definition DEFAULT_ARROW_SIZE : number := 6%Q.
Definition MAX_START_TRIES : nat := 120.

Local Open Scope Q_scope.

(** ** The mask path: [SvgMask.generatePath]

    The template string is kept as the list of its SVG path commands. *)

Inductive PathCmd : Type :=
| MoveTo (px py : number)
| HLineTo (px : number)
| VLineTo (py : number)
| Arc (rx ry : number) (rotation : number) (largeArc sweep : bool) (px py : number)
| ClosePath.

Definition outerPath (canvasSize : ValueXY.t) : list PathCmd :=
  [ MoveTo 0 0; HLineTo (ValueXY.x canvasSize); VLineTo (ValueXY.y canvasSize);
    HLineTo 0; VLineTo 0; ClosePath ]%Q.

Definition innerPath (borderRadius : number) (maskShape : MaskShape)
    (posX posY sizeX sizeY : number) : list PathCmd :=
  match maskShape with
  | circle =>
      let diameter := Qmin sizeX sizeY in
      let radius := diameter / 2 in
      let centerX := posX + sizeX / 2 in
      let centerY := posY + sizeY / 2 in
      [ MoveTo (centerX - radius) centerY;
        Arc radius radius 0 true false (centerX + radius) centerY;
        Arc radius radius 0 true false (centerX - radius) centerY;
        ClosePath ]
  | rectangle =>
      [ MoveTo posX posY; HLineTo (posX + sizeX); VLineTo (posY + sizeY);
        HLineTo posX; VLineTo posY; ClosePath ]
  | rounded_rectangle =>
      let r := Math_min3 borderRadius (sizeX / 2) (sizeY / 2) in
      [ MoveTo (posX + r) posY;
        HLineTo (posX + sizeX - r);
        Arc r r 0 false true (posX + sizeX) (posY + r);
        VLineTo (posY + sizeY - r);
        Arc r r 0 false true (posX + sizeX - r) (posY + sizeY);
        HLineTo (posX + r);
        Arc r r 0 false true posX (posY + sizeY - r);
        VLineTo (posY + r);
        Arc r r 0 false true (posX + r) posY;
        ClosePath ]
  end%Q.

(** [position] and [size] are the values that the two animated values hold
    when the path is drawn. *)
Definition generatePath (canvasSize : ValueXY.t) (borderRadius : number)
    (maskShape : MaskShape) (position size : ValueXY.t) : list PathCmd :=
  let posX := ValueXY.x position in
  let posY := ValueXY.y position in
  let sizeX := ValueXY.x size in
  let sizeY := ValueXY.y size in
  outerPath canvasSize ++ innerPath borderRadius maskShape posX posY sizeX sizeY.

(** The corner radii a path draws with: both radii of each of its arcs. *)
Definition arcRadii (p : list PathCmd) : list number :=
  flat_map (fun c => match c with Arc rx ry _ _ _ _ _ => [rx; ry] | _ => [] end) p.

(** ** The tooltip placement: [TourModal._animateMove] *)

Inductive PlatformOS : Type := ios | android | web | windows | macos.

Module Platform.
(** [Platform.OS] and [StatusBar.currentHeight]. *)
Record t : Type := mk { OS : PlatformOS; StatusBar_currentHeight : option number }.
End Platform.

Module ModalProps.
(** The props of [TourModal] that [_animateMove] reads. *)
Record t : Type := mk {
  androidStatusBarVisible : bool;
  arrowColor : string;
  arrowSize : number;
  margin : number;
  borderRadius : number
}.
Definition default : t := mk false "#fff" DEFAULT_ARROW_SIZE DEFAULT_MARGIN 8%Q.
End ModalProps.

Module ViewStyle.
(** The style keys that [_animateMove] assigns; an unassigned key is [None]. *)
Record t : Type := mk {
  position : option string;
  top : option number;
  bottom : option number;
  left : option number;
  right : option number;
  maxWidth : option number;
  borderTopColor : option string;
  borderBottomColor : option string;
  borderLeftColor : option string;
  borderRightColor : option string
}.
End ViewStyle.

Inductive VerticalPosition : Type := v_bottom | v_top.
Inductive HorizontalPosition : Type := h_left | h_right.

Definition is_android (p : Platform.t) : bool :=
  match Platform.OS p with android => true | _ => false end.

(** [if (!androidStatusBarVisible && Platform.OS === 'android')
      rect.y -= StatusBar.currentHeight ?? 0] *)
Definition shiftForStatusBar (props : ModalProps.t) (plat : Platform.t)
    (rect : LayoutRect.t) : LayoutRect.t :=
  if negb (ModalProps.androidStatusBarVisible props) && is_android plat
  then LayoutRect.mk (LayoutRect.x rect)
         (LayoutRect.y rect - nullish (Platform.StatusBar_currentHeight plat) 0)
         (LayoutRect.width rect) (LayoutRect.height rect)
  else rect.

Definition stepNumberLeft (measuredLayout rect : LayoutRect.t) : number :=
  let l0 := (LayoutRect.x rect - STEP_NUMBER_RADIUS)%Q in
  if ltb l0 0 then
    let l1 := (LayoutRect.x rect + LayoutRect.width rect - STEP_NUMBER_RADIUS)%Q in
    if gtb l1 (LayoutRect.width measuredLayout - STEP_NUMBER_DIAMETER)
    then (LayoutRect.width measuredLayout - STEP_NUMBER_DIAMETER)%Q
    else l1
  else l0.

Definition center (rect : LayoutRect.t) : ValueXY.t :=
  ValueXY.mk (LayoutRect.x rect + LayoutRect.width rect / 2)
             (LayoutRect.y rect + LayoutRect.height rect / 2).

Definition relativeToBottom (measuredLayout rect : LayoutRect.t) : number :=
  Qabs (ValueXY.y (center rect) - LayoutRect.height measuredLayout).
Definition relativeToTop (rect : LayoutRect.t) : number := ValueXY.y (center rect).
Definition relativeToLeft (rect : LayoutRect.t) : number := ValueXY.x (center rect).
Definition relativeToRight (measuredLayout rect : LayoutRect.t) : number :=
  Qabs (ValueXY.x (center rect) - LayoutRect.width measuredLayout).

Definition verticalPosition (measuredLayout rect : LayoutRect.t) : VerticalPosition :=
  if gtb (relativeToBottom measuredLayout rect) (relativeToTop rect)
  then v_bottom else v_top.

Definition horizontalPosition (measuredLayout rect : LayoutRect.t) : HorizontalPosition :=
  if gtb (relativeToLeft rect) (relativeToRight measuredLayout rect)
  then h_left else h_right.

(** [tooltip.right = Math.max(W - (rect.x + rect.width), 0);
     tooltip.right = tooltip.right === 0 ? margin : tooltip.right] *)
Definition tooltipRight (props : ModalProps.t) (measuredLayout rect : LayoutRect.t) : number :=
  let r := Math_max (LayoutRect.width measuredLayout
                     - (LayoutRect.x rect + LayoutRect.width rect)) 0 in
  if Qeq_bool r 0 then ModalProps.margin props else r.

(** [tooltip.left = Math.max(rect.x, 0);
     tooltip.left = tooltip.left === 0 ? margin : tooltip.left] *)
Definition tooltipLeft (props : ModalProps.t) (rect : LayoutRect.t) : number :=
  let l := Math_max (LayoutRect.x rect) 0 in
  if Qeq_bool l 0 then ModalProps.margin props else l.

Definition transparent : string := "transparent".
Definition absolute : string := "absolute".

Definition tooltipStyle (props : ModalProps.t) (measuredLayout rect : LayoutRect.t)
    : ViewStyle.t :=
  let margin := ModalProps.margin props in
  let W := LayoutRect.width measuredLayout in
  let vtop := match verticalPosition measuredLayout rect with
              | v_bottom => Some (LayoutRect.y rect + LayoutRect.height rect + margin)%Q
              | v_top => None
              end in
  let vbottom := match verticalPosition measuredLayout rect with
                 | v_bottom => None
                 | v_top => Some (LayoutRect.height measuredLayout
                                  - (LayoutRect.y rect - margin))%Q
                 end in
  match horizontalPosition measuredLayout rect with
  | h_left =>
      let r := tooltipRight props measuredLayout rect in
      ViewStyle.mk None vtop vbottom None (Some r) (Some (W - r - margin)%Q)
        None None None None
  | h_right =>
      let l := tooltipLeft props rect in
      ViewStyle.mk None vtop vbottom (Some l) None (Some (W - l - margin)%Q)
        None None None None
  end.

Definition arrowStyle (props : ModalProps.t) (measuredLayout rect : LayoutRect.t)
    : ViewStyle.t :=
  let margin := ModalProps.margin props in
  let arrowColor := ModalProps.arrowColor props in
  let arrowSize := ModalProps.arrowSize props in
  let tooltip := tooltipStyle props measuredLayout rect in
  let shift := fun v : number => (v - arrowSize * 2)%Q in
  let vtop := match verticalPosition measuredLayout rect with
              | v_bottom => shift <$> ViewStyle.top tooltip
              | v_top => None
              end in
  let vbottom := match verticalPosition measuredLayout rect with
                 | v_bottom => None
                 | v_top => shift <$> ViewStyle.bottom tooltip
                 end in
  let topColor := match verticalPosition measuredLayout rect with
                  | v_bottom => transparent | v_top => arrowColor end in
  let bottomColor := match verticalPosition measuredLayout rect with
                     | v_bottom => arrowColor | v_top => transparent end in
  match horizontalPosition measuredLayout rect with
  | h_left =>
      ViewStyle.mk (Some absolute) vtop vbottom None
        (Some (tooltipRight props measuredLayout rect + margin)%Q) None
        (Some topColor) (Some bottomColor) (Some transparent) (Some transparent)
  | h_right =>
      ViewStyle.mk (Some absolute) vtop vbottom
        (Some (tooltipLeft props rect + margin)%Q) None None
        (Some topColor) (Some bottomColor) (Some transparent) (Some transparent)
  end.

Module Placement.
(** What one run of [_animateMove] stores: the state it sets and the two
    animated values. *)
Record t : Type := mk {
  currentMaskShape : MaskShape;
  currentBorderRadius : number;
  animatedTop : number;
  animatedStepNumberLeft : number;
  tooltipStyles : ViewStyle.t;
  arrowStyles : ViewStyle.t;
  maskRect : LayoutRect.t
}.
End Placement.

Definition _animateMove (props : ModalProps.t) (plat : Platform.t)
    (layout : LayoutRect.t) (rect0 : LayoutRect.t) (maskShape : option MaskShape)
    (stepBorderRadius : option number) : Placement.t :=
  let measuredLayout := layout in
  let rect := shiftForStatusBar props plat rect0 in
  Placement.mk
    (nullish maskShape rounded_rectangle)
    (nullish stepBorderRadius (ModalProps.borderRadius props))
    (LayoutRect.y rect)
    (stepNumberLeft measuredLayout rect)
    (tooltipStyle props measuredLayout rect)
    (arrowStyle props measuredLayout rect)
    (LayoutRect.mk
       (Math_floor (Math_max (LayoutRect.x rect) 0))
       (Math_floor (Math_max (LayoutRect.y rect) 0))
       (LayoutRect.width rect)
       (LayoutRect.height rect)).

(** The path that [SvgMask] draws for a placement, once its animated values
    have reached the mask rectangle. *)
Definition maskPath (layout : LayoutRect.t) (p : Placement.t) : list PathCmd :=
  let m := Placement.maskRect p in
  generatePath (ValueXY.mk (LayoutRect.width layout) (LayoutRect.height layout))
    (Placement.currentBorderRadius p) (Placement.currentMaskShape p)
    (ValueXY.mk (LayoutRect.x m) (LayoutRect.y m))
    (ValueXY.mk (LayoutRect.width m) (LayoutRect.height m)).

(** A rectangle lies within the viewport. *)
Definition within (viewport rect : LayoutRect.t) : Prop :=
  (0 <= LayoutRect.x rect /\ 0 <= LayoutRect.width rect /\
   LayoutRect.x rect + LayoutRect.width rect <= LayoutRect.width viewport /\
   0 <= LayoutRect.y rect /\ 0 <= LayoutRect.height rect /\
   LayoutRect.y rect + LayoutRect.height rect <= LayoutRect.height viewport)%Q.

(** The distances from the centre of a target to the top edge and to the
    bottom edge of a viewport whose origin is [(0, 0)]. *)
Definition distanceToTopEdge (rect : LayoutRect.t) : number :=
  Qabs (ValueXY.y (center rect) - 0).
Definition distanceToBottomEdge (viewport rect : LayoutRect.t) : number :=
  Qabs (ValueXY.y (center rect) - LayoutRect.height viewport).

(** The scenarios of the specification: a 400 by 800 viewport, a target near
    its top-left corner and one near its bottom-right corner. *)
Definition viewport_400x800 : LayoutRect.t := LayoutRect.mk 0 0 400 800.
Definition target_top_left : LayoutRect.t := LayoutRect.mk 20 20 60 60.
Definition target_bottom_right : LayoutRect.t := LayoutRect.mk 320 700 60 60.
Definition platform_ios : Platform.t := Platform.mk ios None.

Local Close Scope Q_scope.

(** ** Steps *)

Module Step.
(** A registered step. [measure] is what the promise returned by the
    step's [measure()] resolves to ([None] for [null]); [wrapperRef] only
    serves scrolling, which acts on the scroll view alone, and is left out.
    [highlightPadding] is the property that [moveModalToStep] reads from the
    step; [TourStep] registers its steps without it. *)
Record t : Type := mk {
  name : string;
  order : number;
  text : string;
  tourKey : string;
  visible : bool;
  measure : option LayoutRect.t;
  maskShape : option MaskShape;
  borderRadius : option number;
  highlightPadding : option number
}.
End Step.

(** ** Plain objects used as dictionaries

    The entries are kept in the order of [OrdinaryOwnPropertyKeys]: the keys
    that are array indices first, in ascending numeric order, then the other
    keys in the order in which they were created. Inherited properties are
    outside the model. *)

Module JSObject.

Definition digit (c : ascii) : option N :=
  let n := N_of_ascii c in
  if (48 <=? n)%N && (n <=? 57)%N then Some (n - 48)%N else None.

Fixpoint digits (s : string) (acc : N) : option N :=
  match s with
  | EmptyString => Some acc
  | String c s' =>
      match digit c with
      | Some d => digits s' (acc * 10 + d)%N
      | None => None
      end
  end.

(** The array index a key denotes: a canonical decimal numeral below
    [2^32 - 1]. *)
Definition array_index (k : string) : option N :=
  match k with
  | EmptyString => None
  | String "0"%char EmptyString => Some 0%N
  | String "0"%char _ => None
  | _ => match digits k 0 with
         | Some n => if (n <? 4294967295)%N then Some n else None
         | None => None
         end
  end.

Section entries.
Context {V : Type}.

Definition t : Type := list (string * V).

Definition empty : t := [].

Fixpoint get (k : string) (o : t) : option V :=
  match o with
  | [] => None
  | (k', v) :: o' => if String.eqb k k' then Some v else get k o'
  end.

Fixpoint replace (k : string) (v : V) (o : t) : t :=
  match o with
  | [] => []
  | (k', v') :: o' =>
      if String.eqb k k' then (k, v) :: o' else (k', v') :: replace k v o'
  end.

(** A new array-index key goes to its place among the array-index keys. *)
Fixpoint insert_index (n : N) (k : string) (v : V) (o : t) : t :=
  match o with
  | [] => [(k, v)]
  | (k', v') :: o' =>
      match array_index k' with
      | Some n' =>
          if (n <? n')%N then (k, v) :: o else (k', v') :: insert_index n k v o'
      | None => (k, v) :: o
      end
  end.

(** [{ ...o, [k]: v }] *)
Definition set (k : string) (v : V) (o : t) : t :=
  match get k o with
  | Some _ => replace k v o
  | None =>
      match array_index k with
      | Some n => insert_index n k v o
      | None => o ++ [(k, v)]
      end
  end.

(** [const { [k]: _, ...rest } = o] *)
Definition delete (k : string) (o : t) : t :=
  List.filter (fun e => negb (String.eqb k (fst e))) o.

(** [Object.values(o)] *)
Definition values (o : t) : list V := map snd o.
End entries.

Arguments t : clear implicits.
End JSObject.

(** ** The step registry: [stepsReducer] *)

Abbreviation StepsState := (gmap string (JSObject.t Step.t)).

Inductive StepsAction : Type :=
| register (step : Step.t)
| unregister (stepName : string) (tourKey : string).

Definition stepsReducer (state : StepsState) (action : StepsAction) : StepsState :=
  match action with
  | register step =>
      let tourKey := Step.tourKey step in
      let name := Step.name step in
      let tourSteps := default JSObject.empty (state !! tourKey) in
      <[tourKey := JSObject.set name step tourSteps]> state
  | unregister stepName tourKey =>
      match state !! tourKey with
      | None => state
      | Some tourSteps => <[tourKey := JSObject.delete stepName tourSteps]> state
      end
  end.

(** [Array.prototype.sort] with the comparator [(a, b) => a.order - b.order]:
    a stable sort, here by insertion from the right. *)
Fixpoint insertByOrder (a : Step.t) (l : list Step.t) : list Step.t :=
  match l with
  | [] => [a]
  | b :: l' =>
      if Qle_bool (Step.order a) (Step.order b) then a :: l
      else b :: insertByOrder a l'
  end.

Definition sortByOrder (l : list Step.t) : list Step.t := foldr insertByOrder [] l.

(** The order that the comparator sorts by. *)
Definition orderLe (a b : Step.t) : Prop := (Step.order a <= Step.order b)%Q.

(** [Object.values(tourSteps).filter((s) => s.visible)
      .sort((a, b) => a.order - b.order)] *)
Definition visibleInOrder (tourSteps : JSObject.t Step.t) : list Step.t :=
  sortByOrder (List.filter Step.visible (JSObject.values tourSteps)).

(** The ordered steps of a tour, as [start] computes them for its [tourKey]. *)
Definition orderedTourSteps (steps : StepsState) (tourKey : string) : list Step.t :=
  visibleInOrder (default JSObject.empty (steps !! tourKey)).

(** ** Lifecycle events *)

Inductive TourEvent : Type :=
| ev_start (tourKey : string)
| ev_stop (tourKey : string) (completed : bool)
| ev_stepChange (tourKey : option string) (step : Step.t) (stepNumber : Z).

(** ** The engine: [TourProvider] *)

(** A string or [null] in a condition: [null] and the empty string are falsy. *)
Definition truthy (s : option string) : bool :=
  match s with
  | Some (String _ _) => true
  | _ => false
  end.

(** [Array.prototype.findIndex] *)
Fixpoint findIndexFrom {A : Type} (i : Z) (p : A -> bool) (l : list A) : Z :=
  match l with
  | [] => (-1)%Z
  | a :: l' => if p a then i else findIndexFrom (i + 1)%Z p l'
  end.

Definition findIndex {A : Type} (p : A -> bool) (l : list A) : Z := findIndexFrom 0%Z p l.

(** [l[i]] for an integer [i] *)
Definition at_index {A : Type} (l : list A) (i : Z) : option A :=
  if (i <? 0)%Z then None else l !! Z.to_nat i.

Module Config.
(** The props of [TourProvider], the platform, and the layout state of the
    modal (the window). *)
Record t : Type := mk {
  verticalOffset : number;
  highlightPadding : number;
  options : ModalProps.t;
  platform : Platform.t;
  layout : LayoutRect.t
}.
End Config.

(** The handle of a [ScrollView]. *)
Definition ScrollView : Type := nat.

Module Engine.
(** The state and refs of [TourProvider], the placement held by its modal,
    and the logs of [events.emit] and [console.warn]. *)
Record t : Type := mk {
  steps : StepsState;
  activeTour : option string;
  currentStep : option Step.t;
  visible : bool;
  startTries : nat;
  scrollViewRef : option ScrollView;
  placement : option Placement.t;
  emitted : list TourEvent;
  warnings : list string
}.

Definition initial : t := mk ∅ None None false 0 None None [] [].

Definition dispatch (a : StepsAction) (e : t) : t :=
  mk (stepsReducer (steps e) a) (activeTour e) (currentStep e) (visible e)
     (startTries e) (scrollViewRef e) (placement e) (emitted e) (warnings e).
Definition setActiveTour (k : option string) (e : t) : t :=
  mk (steps e) k (currentStep e) (visible e)
     (startTries e) (scrollViewRef e) (placement e) (emitted e) (warnings e).
Definition setCurrentStepState (s : option Step.t) (e : t) : t :=
  mk (steps e) (activeTour e) s (visible e)
     (startTries e) (scrollViewRef e) (placement e) (emitted e) (warnings e).
Definition setVisible (v : bool) (e : t) : t :=
  mk (steps e) (activeTour e) (currentStep e) v
     (startTries e) (scrollViewRef e) (placement e) (emitted e) (warnings e).
Definition setStartTries (n : nat) (e : t) : t :=
  mk (steps e) (activeTour e) (currentStep e) (visible e)
     n (scrollViewRef e) (placement e) (emitted e) (warnings e).
Definition setScrollViewRef (r : option ScrollView) (e : t) : t :=
  mk (steps e) (activeTour e) (currentStep e) (visible e)
     (startTries e) r (placement e) (emitted e) (warnings e).
Definition setPlacement (p : option Placement.t) (e : t) : t :=
  mk (steps e) (activeTour e) (currentStep e) (visible e)
     (startTries e) (scrollViewRef e) p (emitted e) (warnings e).
Definition emit (ev : TourEvent) (e : t) : t :=
  mk (steps e) (activeTour e) (currentStep e) (visible e)
     (startTries e) (scrollViewRef e) (placement e) (emitted e ++ [ev]) (warnings e).
Definition warn (msg : string) (e : t) : t :=
  mk (steps e) (activeTour e) (currentStep e) (visible e)
     (startTries e) (scrollViewRef e) (placement e) (emitted e) (warnings e ++ [msg]).
End Engine.

Definition registerStep (step : Step.t) : Engine.t -> Engine.t :=
  Engine.dispatch (register step).
Definition unregisterStep (stepName : string) (tourKey : string) : Engine.t -> Engine.t :=
  Engine.dispatch (unregister stepName tourKey).

(** [useStateWithAwait]: the setter stores the value; its promise resolves from
    the effect that runs when the state changes, so it stays pending when the
    value stored is the one the state already has. The boolean tells whether
    the promise resolves. *)
Definition setVisibility (newState : bool) (e : Engine.t) : Engine.t * bool :=
  (Engine.setVisible newState e, negb (Bool.eqb (Engine.visible e) newState)).

Definition orderedSteps (e : Engine.t) : list Step.t :=
  match Engine.activeTour e with
  | Some activeTour =>
      if truthy (Some activeTour)
      then visibleInOrder (default JSObject.empty (Engine.steps e !! activeTour))
      else []
  | None => []
  end.

Definition stepIndex (e : Engine.t) : Z :=
  match Engine.currentStep e with
  | Some currentStep =>
      findIndex (fun s => Qeq_bool (Step.order s) (Step.order currentStep)) (orderedSteps e)
  | None => (-1)%Z
  end.

Definition currentStepNumber (e : Engine.t) : Z := (stepIndex e + 1)%Z.
Definition totalStepsNumber (e : Engine.t) : Z := Z.of_nat (length (orderedSteps e)).
Definition isFirstStep (e : Engine.t) : bool := (stepIndex e =? 0)%Z.
Definition isLastStep (e : Engine.t) : bool :=
  (stepIndex e =? Z.of_nat (length (orderedSteps e)) - 1)%Z.

(** The rectangle that [moveModalToStep] hands to [animateMove]. *)
Definition highlightRect (padding verticalOffset : number) (measurement : LayoutRect.t)
    : LayoutRect.t :=
  LayoutRect.mk
    (LayoutRect.x measurement - padding / 2)%Q
    (LayoutRect.y measurement - padding / 2 + verticalOffset)%Q
    (LayoutRect.width measurement + padding)%Q
    (LayoutRect.height measurement + padding)%Q.

(** The highlight padding of a step: [step.highlightPadding ?? highlightPadding]. *)
Definition paddingOf (cfg : Config.t) (step : Step.t) : number :=
  nullish (Step.highlightPadding step) (Config.highlightPadding cfg).

(** [moveModalToStep(step)]; the modal is mounted, so that [modalRef.current]
    is set and [animateMove] runs [_animateMove] on the next frame. *)
Definition moveModalToStep (cfg : Config.t) (step : option Step.t) (e : Engine.t)
    : Engine.t :=
  match step with
  | None => e
  | Some step =>
      match Step.measure step with
      | None => e
      | Some measurement =>
          let padding := paddingOf cfg step in
          Engine.setPlacement
            (Some (_animateMove (Config.options cfg) (Config.platform cfg)
                     (Config.layout cfg)
                     (highlightRect padding (Config.verticalOffset cfg) measurement)
                     (Step.maskShape step) (Step.borderRadius step)))
            e
      end
  end.

(** [setCurrentStep(step, move = true)]; the scrolling in between acts on the
    scroll view only. *)
Definition setCurrentStep (cfg : Config.t) (step : option Step.t) (move : bool)
    (e : Engine.t) : Engine.t :=
  let e := Engine.setCurrentStepState step e in
  if move then moveModalToStep cfg step e else e.

(** What one invocation of [start] comes to. *)
Inductive StartResult : Type :=
| Started     (* the tour was started *)
| Deferred    (* no first step: the call re-issues itself on the next frame *)
| Aborted.    (* the retry counter is above [MAX_START_TRIES] *)

(** The double quote, which the text of the warning holds. *)
Definition dquote : string := String (ascii_of_nat 34) EmptyString.

Definition noStepsWarning (tourKey : string) : string :=
  "[TourPilot] Failed to start tour " ++ dquote ++ tourKey ++ dquote
  ++ " - no steps found".

(** The step that [start] begins with:
    [fromStep ? tourSteps[fromStep] : orderedTourSteps[0]]. *)
Definition firstStepOf (steps : StepsState) (tourKey : string)
    (fromStep : option string) : option Step.t :=
  let tourSteps := default JSObject.empty (steps !! tourKey) in
  let orderedTourSteps := visibleInOrder tourSteps in
  if truthy fromStep then JSObject.get (default "" fromStep) tourSteps
  else orderedTourSteps !! 0%nat.

(** [if (scrollView) scrollViewRef.current = scrollView] *)
Definition withScrollView (scrollView : option ScrollView) (e : Engine.t) : Engine.t :=
  match scrollView with
  | Some sv => Engine.setScrollViewRef (Some sv) e
  | None => e
  end.

(** One invocation of [start(tourKey, fromStep, scrollView)]. *)
Definition start (cfg : Config.t) (tourKey : string) (fromStep : option string)
    (scrollView : option ScrollView) (e : Engine.t) : Engine.t * StartResult :=
  let e := withScrollView scrollView e in
  let firstStep := firstStepOf (Engine.steps e) tourKey fromStep in
  if (MAX_START_TRIES <? Engine.startTries e)%nat then
    (Engine.warn (noStepsWarning tourKey) (Engine.setStartTries 0 e), Aborted)
  else
    match firstStep with
    | None => (Engine.setStartTries (Engine.startTries e + 1) e, Deferred)
    | Some firstStep =>
        let e := Engine.setActiveTour (Some tourKey) e in
        let e := Engine.emit (ev_start tourKey) e in
        let e := setCurrentStep cfg (Some firstStep) true e in
        let e := moveModalToStep cfg (Some firstStep) e in
        let '(e, resolved) := setVisibility true e in
        (* [startTries.current = 0] runs once [await setVisibility(true)] is over *)
        (if resolved then Engine.setStartTries 0 e else e, Started)
    end.


Definition stop (e : Engine.t) : Engine.t :=
  let tourKey := Engine.activeTour e in
  let completed := isLastStep e in
  let '(e, resolved) := setVisibility false e in
  (* the rest runs once [await setVisibility(false)] is over *)
  if resolved then
    let e := Engine.setActiveTour None e in
    let e := Engine.setCurrentStepState None e in
    let e := Engine.setScrollViewRef None e in
    if truthy tourKey then Engine.emit (ev_stop (default "" tourKey) completed) e else e
  else e.

Definition goToNext (cfg : Config.t) (e : Engine.t) : Engine.t :=
  match at_index (orderedSteps e) (stepIndex e + 1) with
  | Some nextStep =>
      let e' := Engine.emit
                  (ev_stepChange (Engine.activeTour e) nextStep (stepIndex e + 2)) e in
      setCurrentStep cfg (Some nextStep) true e'
  | None => stop e
  end.

Definition goToPrev (cfg : Config.t) (e : Engine.t) : Engine.t :=
  match at_index (orderedSteps e) (stepIndex e - 1) with
  | Some prevStep =>
      let e' := Engine.emit
                  (ev_stepChange (Engine.activeTour e) prevStep (stepIndex e)) e in
      setCurrentStep cfg (Some prevStep) true e'
  | None => e
  end.

(** [goToNth(n)], for an integer [n]. *)
Definition goToNth (cfg : Config.t) (n : Z) (e : Engine.t) : Engine.t :=
  match at_index (orderedSteps e) (n - 1) with
  | Some step =>
      let e' := Engine.emit (ev_stepChange (Engine.activeTour e) step n) e in
      setCurrentStep cfg (Some step) true e'
  | None => e
  end.


(** ** Example states

    A provider with the default options on the 400 by 800 viewport; a tour
    [t] whose two steps [a] and [b] have the same order, and a tour [u] whose
    two steps [c] and [d] have the orders 1 and 2. *)

Definition config_default : Config.t :=
  Config.mk 0%Q DEFAULT_HIGHLIGHT_PADDING ModalProps.default platform_ios viewport_400x800.

Definition step_a : Step.t :=
  Step.mk "a" 1%Q "first" "t" true (Some target_top_left) None None None.
Definition step_b : Step.t :=
  Step.mk "b" 1%Q "second" "t" true (Some target_bottom_right) None None None.
Definition step_c : Step.t :=
  Step.mk "c" 1%Q "other" "u" true (Some target_top_left) None None None.
Definition step_d : Step.t :=
  Step.mk "d" 2%Q "last" "u" true (Some target_bottom_right) None None None.

Definition engine_registered : Engine.t :=
  registerStep step_d
    (registerStep step_c (registerStep step_b (registerStep step_a Engine.initial))).

(** Tour [t] started at its first step. *)
Definition engine_on_a : Engine.t :=
  fst (start config_default "t" None None engine_registered).

(** Tour [u] started, and moved on to its last step. *)
Definition engine_on_u : Engine.t :=
  fst (start config_default "u" None None engine_registered).

(** Tour [t] started from its step [b]. *)
Definition engine_on_b : Engine.t :=
  fst (start config_default "t" (Some "b") None engine_registered).

(** ** The event bus: [TourEventEmitter] *)

Module TourEventType.
Inductive t : Type := start | stop | stepChange.

Definition eqb (a b : t) : bool :=
  match a, b with
  | start, start | stop, stop | stepChange, stepChange => true
  | _, _ => false
  end.
End TourEventType.

Module TourEventEmitter.

(** A callback is known by its reference. *)
Definition Callback : Type := nat.

(** The entries of a [Set], as ECMAScript keeps them: in insertion order,
    an entry that was deleted left as an empty slot. *)
Definition SetData : Type := list (option Callback).

Definition setHas (cb : Callback) (sd : SetData) : bool :=
  existsb (fun s => match s with Some c => Nat.eqb c cb | None => false end) sd.

Definition setAdd (cb : Callback) (sd : SetData) : SetData :=
  if setHas cb sd then sd else sd ++ [Some cb].

Definition setDelete (cb : Callback) (sd : SetData) : SetData :=
  map (fun s => match s with
                | Some c => if Nat.eqb c cb then None else Some c
                | None => None
                end) sd.

(** The callbacks of a [Set], in the order in which it enumerates them. *)
Definition setValues (sd : SetData) : list Callback := omap id sd.

(** The emitter: the [Set] objects it has created, by address, and the
    [Map] from event names to them. *)
Record t : Type := mk {
  heap : list SetData;
  listeners : TourEventType.t -> option nat
}.

Definition empty : t := mk [] (fun _ => None).

Definition mapSet (event : TourEventType.t) (a : option nat)
    (m : TourEventType.t -> option nat) : TourEventType.t -> option nat :=
  fun ev => if TourEventType.eqb ev event then a else m ev.

Definition on (event : TourEventType.t) (callback : Callback) (em : t) : t :=
  let em :=
    match listeners em event with
    | Some _ => em
    | None => mk (heap em ++ [[]]) (mapSet event (Some (length (heap em))) (listeners em))
    end in
  match listeners em event with
  | Some a => mk (alter (setAdd callback) a (heap em)) (listeners em)
  | None => em
  end.

Definition off (event : TourEventType.t) (callback : Callback) (em : t) : t :=
  match listeners em event with
  | Some a => mk (alter (setDelete callback) a (heap em)) (listeners em)
  | None => em
  end.

Definition removeAllListeners (event : option TourEventType.t) (em : t) : t :=
  match event with
  | Some event => mk (heap em) (mapSet event None (listeners em))
  | None => mk (heap em) (fun _ => None)
  end.

(** The entries of the [Set] at an address. *)
Definition setAt (em : t) (a : nat) : SetData := default [] (heap em !! a).

(** The callbacks subscribed to an event. *)
Definition subscribed (event : TourEventType.t) (em : t) : list Callback :=
  match listeners em event with
  | Some a => setValues (setAt em a)
  | None => []
  end.

Section emit.
(** The payload of events, the rest of the program's state, and what a
    callback may throw. A callback acts on the emitter and on the rest
    of the state, and returns or throws. *)
Context {Data Host Error : Type}.

Inductive Completion : Type :=
| Returned
| Threw (error : Error).

Variable call : Callback -> Data -> t * Host -> (t * Host) * Completion.

(** An emission under way: the state, the calls made so far with how
    each completed, and the lines of [console.error]. *)
Record Emission : Type := mkEmission {
  world : t * Host;
  calls : list (Callback * Data * Completion);
  console_error : list (TourEventType.t * Error)
}.

(** The [try]/[catch] around one callback. *)
Definition invoke (event : TourEventType.t) (data : Data) (callback : Callback)
    (r : Emission) : Emission :=
  let '(w, c) := call callback data (world r) in
  mkEmission w (calls r ++ [(callback, data, c)])
    match c with
    | Returned => console_error r
    | Threw error => console_error r ++ [(event, error)]
    end.

(** [callbacks.forEach(...)] on the [Set] at address [a], from entry [i]
    on: the entries are read from the live [Set], so that those added
    during the loop are visited and those deleted are skipped. *)
Fixpoint forEach (fuel : nat) (a i : nat) (event : TourEventType.t) (data : Data)
    (r : Emission) : option Emission :=
  match fuel with
  | O => None
  | S fuel' =>
      match setAt (fst (world r)) a !! i with
      | None => Some r
      | Some None => forEach fuel' a (S i) event data r
      | Some (Some callback) =>
          forEach fuel' a (S i) event data (invoke event data callback r)
      end
  end.

(** [emit(event, data)]; [None] when the loop is not over within [fuel]
    entries. *)
Definition emit (fuel : nat) (event : TourEventType.t) (data : Data)
    (w : t * Host) : option Emission :=
  match listeners (fst w) event with
  | Some a => forEach fuel a 0 event data (mkEmission w [] [])
  | None => Some (mkEmission w [] [])
  end.

(** The errors among the completions of a list of calls. *)
Definition thrown (event : TourEventType.t)
    (cs : list (Callback * Data * Completion)) : list (TourEventType.t * Error) :=
  omap (fun c => match snd c with
                 | Threw error => Some (event, error)
                 | Returned => None
                 end) cs.
(** The calls of a loop over given callbacks, one call each. *)
Definition deliver (event : TourEventType.t) (data : Data) (callbacks : list Callback)
    (r : Emission) : Emission :=
  foldl (fun r callback => invoke event data callback r) r callbacks.

(** What an emission delivered: the state it left and the calls it made,
    apart from how each call completed. *)
Definition delivered (r : Emission) : (t * Host) * list (Callback * Data) :=
  (world r, map fst (calls r)).

(** A callback table leaves the [Set] at address [a] as it is. *)
Definition leavesSet (a : nat) : Prop :=
  forall callback data w,
    setAt (fst (fst (call callback data w))) a = setAt (fst w) a.

(** Log and continue, by the words of the specification: the listeners are
    called in turn with the data of the event, each on the state that the
    one before it left, whether that one returned or threw; what a listener
    throws is logged, and the next listener is called all the same. *)
Fixpoint logAndContinue (event : TourEventType.t) (data : Data)
    (callbacks : list Callback) (w : t * Host) : Emission :=
  match callbacks with
  | [] => mkEmission w [] []
  | callback :: callbacks' =>
      let '(w', c) := call callback data w in
      let rest := logAndContinue event data callbacks' w' in
      mkEmission (world rest) ((callback, data, c) :: calls rest)
        match c with
        | Returned => console_error rest
        | Threw error => (event, error) :: console_error rest
        end
  end.

(** The callbacks that an emission called, in order. *)
Definition called (r : Emission) : list Callback :=
  map (fun c => fst (fst c)) (calls r).

(** The same callbacks, with whatever they throw swallowed inside them. *)
Definition quiet (callback : Callback) (data : Data) (w : t * Host)
    : (t * Host) * Completion :=
  (fst (call callback data w), Returned).
End emit.

Arguments Completion : clear implicits.
Arguments Emission : clear implicits.

(** *** Example: three subscribers to [start], the second of which throws *)

Definition example_emitter : t :=
  on TourEventType.start 9 (on TourEventType.start 7 (on TourEventType.start 5 empty)).

(** Each callback counts one call on the host state; callback 7 then throws. *)
Definition example_call (callback : Callback) (data : string) (w : t * nat)
    : (t * nat) * Completion string :=
  ((fst w, S (snd w)), if Nat.eqb callback 7 then Threw "boom" else Returned).
End TourEventEmitter.

(** ** Further readings of the placement *)

(** The distances from the centre of a target to the left edge and to the
    right edge of a viewport whose origin is [(0, 0)]. *)
Definition distanceToLeftEdge (rect : LayoutRect.t) : number :=
  Qabs (ValueXY.x (center rect) - 0).
Definition distanceToRightEdge (viewport rect : LayoutRect.t) : number :=
  Qabs (ValueXY.x (center rect) - LayoutRect.width viewport).

(** The room a viewport leaves on each side of a target. *)
Definition roomAbove (rect : LayoutRect.t) : number := LayoutRect.y rect.
Definition roomBelow (viewport rect : LayoutRect.t) : number :=
  (LayoutRect.height viewport - (LayoutRect.y rect + LayoutRect.height rect))%Q.
Definition roomLeft (rect : LayoutRect.t) : number := LayoutRect.x rect.
Definition roomRight (viewport rect : LayoutRect.t) : number :=
  (LayoutRect.width viewport - (LayoutRect.x rect + LayoutRect.width rect))%Q.

(** ** Well-formed registries *)

(** The steps filed under a tour, whatever their visibility. *)
Definition tourStepsOf (state : StepsState) (tourKey : string) : JSObject.t Step.t :=
  default JSObject.empty (state !! tourKey).

(** Every step is filed under its own tour key and its own name, and a tour
    holds a name once. *)
Definition registryOk (state : StepsState) : Prop :=
  forall (tourKey : string) (tourSteps : JSObject.t Step.t),
    state !! tourKey = Some tourSteps ->
    NoDup (map fst tourSteps)
    /\ Forall (fun entry => Step.name (snd entry) = fst entry
                            /\ Step.tourKey (snd entry) = tourKey) tourSteps.

(** The registry after a sequence of dispatched actions. *)
Definition dispatched (actions : list StepsAction) : StepsState :=
  foldl stepsReducer ∅ actions.

(** ** The other callbacks of the provider and of its modal *)

(** [remeasureCurrentStep], once its delay is over. *)
Definition remeasureCurrentStep (cfg : Config.t) (e : Engine.t) : Engine.t :=
  match Engine.currentStep e with
  | Some currentStep => moveModalToStep cfg (Some currentStep) e
  | None => e
  end.

(** [handleMaskClick] of the modal: a press on the backdrop. *)
Definition handleMaskClick (stopOnOutsideClick : bool) (e : Engine.t) : Engine.t :=
  if stopOnOutsideClick then stop e else e.

(** The handler of [hardwareBackPress], which the modal installs while it is
    visible. *)
Definition hardwareBackPress (e : Engine.t) : Engine.t :=
  if Engine.visible e then stop e else e.

(** What a program can do to the provider: the functions of the context
    value, and the two inputs that the modal handles. *)
Inductive Operation : Type :=
| op_registerStep (step : Step.t)
| op_unregisterStep (stepName tourKey : string)
| op_start (tourKey : string) (fromStep : option string) (scrollView : option ScrollView)
| op_stop
| op_goToNext
| op_goToPrev
| op_goToNth (n : Z)
| op_remeasureCurrentStep
| op_maskClick (stopOnOutsideClick : bool)
| op_backPress.

Definition perform (cfg : Config.t) (e : Engine.t) (op : Operation) : Engine.t :=
  match op with
  | op_registerStep step => registerStep step e
  | op_unregisterStep stepName tourKey => unregisterStep stepName tourKey e
  | op_start tourKey fromStep scrollView => fst (start cfg tourKey fromStep scrollView e)
  | op_stop => stop e
  | op_goToNext => goToNext cfg e
  | op_goToPrev => goToPrev cfg e
  | op_goToNth n => goToNth cfg n e
  | op_remeasureCurrentStep => remeasureCurrentStep cfg e
  | op_maskClick stopOnOutsideClick => handleMaskClick stopOnOutsideClick e
  | op_backPress => hardwareBackPress e
  end.

(** The provider after a sequence of operations that do not overlap: each
    is issued once the one before has run its course, to its end or to an
    [await] that stays pending, and acts on the state that one left. *)
Definition performAll (cfg : Config.t) (ops : list Operation) : Engine.t :=
  foldl (perform cfg) Engine.initial ops.

(** The tour an event is about. *)
Definition eventTour (ev : TourEvent) : option string :=
  match ev with
  | ev_start tourKey => Some tourKey
  | ev_stop tourKey _ => Some tourKey
  | ev_stepChange tourKey _ _ => tourKey
  end.

Definition isStart (ev : TourEvent) : bool :=
  match ev with ev_start _ => true | _ => false end.
Definition isStop (ev : TourEvent) : bool :=
  match ev with ev_stop _ _ => true | _ => false end.

(** No two steps of a list have the same order. *)
Definition distinctOrders (l : list Step.t) : Prop :=
  forall (i j : nat) (a b : Step.t),
    l !! i = Some a -> l !! j = Some b ->
    (Step.order a == Step.order b)%Q -> i = j.

(** The state of the provider hangs together: a visible overlay has an
    active tour, the active tour and the current step are set and cleared
    together, the retry counter is at most one above its cap, and the
    registry is well formed. *)
Definition engineOk (e : Engine.t) : Prop :=
  (Engine.visible e = true -> is_Some (Engine.activeTour e))
  /\ (Engine.activeTour e = None <-> Engine.currentStep e = None)
  /\ Engine.startTries e <= MAX_START_TRIES + 1
  /\ registryOk (Engine.steps e).

(** The log of events hangs together: the active tour was started, every
    event is about a tour that was started, and there are no more stops,
    the active tour counted as one to come, than starts. *)
Definition logOk (e : Engine.t) : Prop :=
  (forall k, Engine.activeTour e = Some k -> In (ev_start k) (Engine.emitted e))
  /\ (forall ev, In ev (Engine.emitted e) ->
        exists k, eventTour ev = Some k /\ In (ev_start k) (Engine.emitted e))
  /\ length (List.filter isStop (Engine.emitted e))
     + match Engine.activeTour e with Some _ => 1 | None => 0 end
     <= length (List.filter isStart (Engine.emitted e)).

(** ** The hooks of [useTourControl.ts] *)

Module TourControl.
(** The values that [useTourControl] returns beside [start] and [stop]. *)
Record t : Type := mk {
  isActive : bool;
  currentStep : option Step.t;
  currentStepNumber : Z;
  totalStepsNumber : Z
}.
End TourControl.

(** [tour.activeTour === tourKey] *)
Definition activeTourIs (tourKey : string) (e : Engine.t) : bool :=
  match Engine.activeTour e with
  | Some activeTour => String.eqb activeTour tourKey
  | None => false
  end.

Definition useTourControl (tourKey : string) (e : Engine.t) : TourControl.t :=
  let isActive := activeTourIs tourKey e && Engine.visible e in
  TourControl.mk isActive
    (if isActive then Engine.currentStep e else None)
    (if isActive then currentStepNumber e else 0%Z)
    (if isActive then totalStepsNumber e else 0%Z).

Definition useIsTourActive (e : Engine.t) : bool := Engine.visible e.
Definition useActiveTour (e : Engine.t) : option string := Engine.activeTour e.

(** The callbacks of the options of [useTourControl]. *)
Inductive ControlCall : Type :=
| onStart
| onStop (completed : bool)
| onStepChange (step : Step.t) (stepNumber : Z).

(** [handleStart], [handleStop] and [handleStepChange]: the callback that an
    event leads to in the control of [tourKey], if any. *)
Definition controlHandler (tourKey : string) (ev : TourEvent) : option ControlCall :=
  match ev with
  | ev_start k => if String.eqb k tourKey then Some onStart else None
  | ev_stop k completed => if String.eqb k tourKey then Some (onStop completed) else None
  | ev_stepChange (Some k) step stepNumber =>
      if String.eqb k tourKey then Some (onStepChange step stepNumber) else None
  | ev_stepChange None _ _ => None
  end.

(** The callback that passes an event on. *)
Definition eventCall (ev : TourEvent) : ControlCall :=
  match ev with
  | ev_start _ => onStart
  | ev_stop _ completed => onStop completed
  | ev_stepChange _ step stepNumber => onStepChange step stepNumber
  end.

(** An event is about the tour [tourKey]. *)
Definition aboutTour (tourKey : string) (ev : TourEvent) : bool :=
  match eventTour ev with
  | Some k => String.eqb k tourKey
  | None => false
  end.

(** ** [TourStep] *)

Module Measured.
(** The arguments that the native [measure] passes to its callback. *)
Record t : Type := mk {
  ox : number; oy : number; width : number; height : number;
  pageX : number; pageY : number
}.
End Measured.

(** [measure] of a [TourStep], over what each animation frame shows of the
    wrapped element: nothing while [wrapperRef.current] is not set, else the
    arguments of the native callback. [None] while the promise is pending. *)
Fixpoint measure (frames : list (option Measured.t)) : option LayoutRect.t :=
  match frames with
  | [] => None
  | None :: frames' => measure frames'
  | Some m :: frames' =>
      if Qeq_bool (Measured.width m) 0 && Qeq_bool (Measured.height m) 0
      then measure frames'
      else Some (LayoutRect.mk (Measured.pageX m) (Measured.pageY m)
                   (Measured.width m) (Measured.height m))
  end.

(** A frame on which [measure] tries again. *)
Definition notLaidOut (frame : option Measured.t) : Prop :=
  match frame with
  | None => True
  | Some m => (Measured.width m == 0 /\ Measured.height m == 0)%Q
  end.

Module TourStepProps.
(** The props of [TourStep] that reach the registry; [active] and
    [maskShape] with their defaults applied when absent. *)
Record t : Type := mk {
  name : string;
  order : number;
  text : string;
  tourKey : string;
  active : option bool;
  maskShape : option MaskShape;
  borderRadius : option number
}.
End TourStepProps.

(** The step that a [TourStep] registers; [measured] is what its [measure]
    resolves to. *)
Definition stepOfProps (props : TourStepProps.t) (measured : option LayoutRect.t)
    : Step.t :=
  Step.mk (TourStepProps.name props) (TourStepProps.order props)
    (TourStepProps.text props) (TourStepProps.tourKey props) true measured
    (Some (nullish (TourStepProps.maskShape props) rounded_rectangle))
    (TourStepProps.borderRadius props) None.

(** The first effect of [TourStep], on the registry and on the
    [registeredName] ref. *)
Definition registrationEffect (props : TourStepProps.t) (measured : option LayoutRect.t)
    (registeredName : option string) (e : Engine.t) : Engine.t * option string :=
  if nullish (TourStepProps.active props) true then
    let e :=
      if truthy registeredName
         && negb (String.eqb (default "" registeredName) (TourStepProps.name props))
      then unregisterStep (default "" registeredName) (TourStepProps.tourKey props) e
      else e in
    (registerStep (stepOfProps props measured) e, Some (TourStepProps.name props))
  else (e, registeredName).

(** The cleanup of the second effect of [TourStep]. *)
Definition registrationCleanup (props : TourStepProps.t)
    (registeredName : option string) (e : Engine.t) : Engine.t :=
  if nullish (TourStepProps.active props) true then
    if truthy registeredName
    then unregisterStep (default "" registeredName) (TourStepProps.tourKey props) e
    else e
  else e.

(** ** Emitters built by subscriptions *)

Inductive EmitterOp : Type :=
| em_on (event : TourEventType.t) (callback : TourEventEmitter.Callback)
| em_off (event : TourEventType.t) (callback : TourEventEmitter.Callback)
| em_removeAllListeners (event : option TourEventType.t).

Definition emitterStep (em : TourEventEmitter.t) (op : EmitterOp) : TourEventEmitter.t :=
  match op with
  | em_on event callback => TourEventEmitter.on event callback em
  | em_off event callback => TourEventEmitter.off event callback em
  | em_removeAllListeners event => TourEventEmitter.removeAllListeners event em
  end.

(** The emitter after a sequence of calls on a new one. *)
Definition emitterAfter (ops : list EmitterOp) : TourEventEmitter.t :=
  foldl emitterStep TourEventEmitter.empty ops.

(** Every event that has a [Set] has one of its own, among those created,
    and the [Set] holds a callback once. *)
Definition emitterOk (em : TourEventEmitter.t) : Prop :=
  forall (event : TourEventType.t) (a : nat),
    TourEventEmitter.listeners em event = Some a ->
    a < length (TourEventEmitter.heap em)
    /\ NoDup (TourEventEmitter.setValues (TourEventEmitter.setAt em a))
    /\ (forall event', TourEventEmitter.listeners em event' = Some a -> event' = event).

(** A callback table in which a callback, on the [Set] at address [a],
    at most unsubscribes itself. *)
Definition unsubscribesSelfOnly {Data Host Error : Type}
    (call : TourEventEmitter.Callback -> Data -> TourEventEmitter.t * Host ->
            (TourEventEmitter.t * Host) * TourEventEmitter.Completion Error)
    (a : nat) : Prop :=
  forall callback data w,
    TourEventEmitter.setAt (fst (fst (call callback data w))) a
    = TourEventEmitter.setAt (fst w) a
    \/ TourEventEmitter.setAt (fst (fst (call callback data w))) a
       = TourEventEmitter.setDelete callback (TourEventEmitter.setAt (fst w) a).

(** Each callback counts its call on the host state and unsubscribes itself
    from [start]: a listener that is to run once. *)
Definition once_call (callback : TourEventEmitter.Callback) (data : string)
    (w : TourEventEmitter.t * nat)
    : (TourEventEmitter.t * nat) * TourEventEmitter.Completion string :=
  ((TourEventEmitter.off TourEventType.start callback (fst w), S (snd w)),
   TourEventEmitter.Returned).

(** ** Further example states *)


(** A step registered under the empty tour key, and that tour started. *)
Definition step_e : Step.t :=
  Step.mk "e" 1%Q "only" "" true (Some target_top_left) None None None.
Definition engine_on_empty_key : Engine.t :=
  fst (start config_default "" None None (registerStep step_e Engine.initial)).

(** ** Tactics *)

(** Linear arithmetic on numbers, with the halves written as products. *)
Ltac halves :=
  repeat match goal with
         | |- context [(?a / 2)%Q] => change (a / 2)%Q with (a * (1 # 2))%Q in *
         | H : context [(?a / 2)%Q] |- _ => change (a / 2)%Q with (a * (1 # 2))%Q in *
         end.
Ltac qlra := halves; lra.

(** Reads a field of an engine state built by the setters. *)
Ltac engine_fields :=
  cbn [fst snd Engine.steps Engine.activeTour Engine.currentStep Engine.visible
       Engine.startTries Engine.scrollViewRef Engine.placement Engine.emitted
       Engine.warnings Engine.dispatch Engine.setActiveTour Engine.setCurrentStepState
       Engine.setVisible Engine.setStartTries Engine.setScrollViewRef
       Engine.setPlacement Engine.emit Engine.warn] in *.

(** * Proofs *)

(** ** Numbers *)

Local Open Scope Q_scope.

Lemma gtb_true (a b : number) : gtb a b = true <-> b < a.
Proof.
  unfold gtb. rewrite negb_true_iff.
  destruct (Qle_bool a b) eqn:E.
  - apply Qle_bool_iff in E. split; [discriminate | intros H; lra].
  - split; [intros _ | reflexivity].
    destruct (Qlt_le_dec b a) as [H | H]; [exact H |].
    apply Qle_bool_iff in H. congruence.
Qed.

Lemma gtb_false (a b : number) : gtb a b = false <-> a <= b.
Proof. unfold gtb. rewrite negb_false_iff. apply Qle_bool_iff. Qed.

Lemma ltb_true (a b : number) : ltb a b = true <-> a < b.
Proof. apply (gtb_true b a). Qed.

Lemma ltb_false (a b : number) : ltb a b = false <-> b <= a.
Proof. apply (gtb_false b a). Qed.

Lemma Math_min3_le (a b c : number) :
  Math_min3 a b c <= a /\ Math_min3 a b c <= b /\ Math_min3 a b c <= c.
Proof.
  unfold Math_min3.
  pose proof (Q.le_min_l (Qmin a b) c). pose proof (Q.le_min_r (Qmin a b) c).
  pose proof (Q.le_min_l a b). pose proof (Q.le_min_r a b).
  repeat split; lra.
Qed.

Lemma Math_min3_attained (a b c : number) :
  Math_min3 a b c == a \/ Math_min3 a b c == b \/ Math_min3 a b c == c.
Proof.
  unfold Math_min3.
  destruct (Q.min_dec (Qmin a b) c) as [E | E]; [| right; right; exact E].
  destruct (Q.min_dec a b) as [E' | E'].
  - left. rewrite E. exact E'.
  - right; left. rewrite E. exact E'.
Qed.

Lemma Qmin_half (w h : number) : Qmin (w / 2) (h / 2) == Qmin w h / 2.
Proof.
  destruct (Q.min_spec w h) as [[H E] | [H E]]; rewrite E.
  - apply Q.min_l. qlra.
  - apply Q.min_r. qlra.
Qed.

(** ** The mask path *)

Lemma arcRadii_rounded_rectangle (canvasSize : ValueXY.t) (borderRadius : number)
    (position size : ValueXY.t) :
  arcRadii (generatePath canvasSize borderRadius rounded_rectangle position size)
  = replicate 8 (Math_min3 borderRadius (ValueXY.x size / 2) (ValueXY.y size / 2)).
Proof. reflexivity. Qed.

(** C6. The rounded-rectangle path draws all its corners with one radius, the
    least of the requested radius, half the width and half the height of the
    target; it never exceeds half the smaller side of the target. *)
Theorem rounded_rectangle_radius_clamped (canvasSize : ValueXY.t)
    (borderRadius : number) (position size : ValueXY.t) :
  exists r : number,
    arcRadii (generatePath canvasSize borderRadius rounded_rectangle position size)
    = replicate 8 r
    /\ r <= borderRadius /\ r <= ValueXY.x size / 2 /\ r <= ValueXY.y size / 2
    /\ (r == borderRadius \/ r == ValueXY.x size / 2 \/ r == ValueXY.y size / 2)
    /\ r <= Qmin (ValueXY.x size) (ValueXY.y size) / 2.
Proof.
  exists (Math_min3 borderRadius (ValueXY.x size / 2) (ValueXY.y size / 2)).
  split; [apply arcRadii_rounded_rectangle |].
  destruct (Math_min3_le borderRadius (ValueXY.x size / 2) (ValueXY.y size / 2))
    as (Ha & Hb & Hc).
  repeat split; try assumption.
  - apply Math_min3_attained.
  - rewrite <- Qmin_half. apply Q.min_glb; assumption.
Qed.

(** The same bound for the mask that a placement displays: its shape defaults
    to the rounded rectangle and its radius to the provider's. *)
Lemma maskPath_radius_clamped (props : ModalProps.t) (plat : Platform.t)
    (layout rect : LayoutRect.t) (stepBorderRadius : option number) :
  Forall (fun r => r <= Qmin (LayoutRect.width rect) (LayoutRect.height rect) / 2)
    (arcRadii (maskPath layout (_animateMove props plat layout rect None stepBorderRadius))).
Proof.
  assert (Hsize : LayoutRect.width (shiftForStatusBar props plat rect) = LayoutRect.width rect
                  /\ LayoutRect.height (shiftForStatusBar props plat rect) = LayoutRect.height rect).
  { unfold shiftForStatusBar. destruct (_ && _); split; reflexivity. }
  destruct Hsize as [Hw Hh].
  unfold maskPath, _animateMove. cbn [Placement.maskRect Placement.currentBorderRadius
    Placement.currentMaskShape LayoutRect.x LayoutRect.y LayoutRect.width LayoutRect.height nullish].
  rewrite Hw, Hh, arcRadii_rounded_rectangle. cbn [ValueXY.x ValueXY.y].
  apply Forall_replicate.
  destruct (Math_min3_le (nullish stepBorderRadius (ModalProps.borderRadius props))
              (LayoutRect.width rect / 2) (LayoutRect.height rect / 2)) as (_ & Hb & Hc).
  rewrite <- Qmin_half. apply Q.min_glb; assumption.
Qed.

(** ** The tooltip placement *)

Lemma verticalPosition_bottom (measuredLayout rect : LayoutRect.t) :
  verticalPosition measuredLayout rect = v_bottom
  <-> relativeToTop rect < relativeToBottom measuredLayout rect.
Proof.
  unfold verticalPosition.
  destruct (gtb (relativeToBottom measuredLayout rect) (relativeToTop rect)) eqn:E.
  - apply gtb_true in E. tauto.
  - apply gtb_false in E. split; [discriminate | intros H; lra].
Qed.

Lemma verticalPosition_top (measuredLayout rect : LayoutRect.t) :
  verticalPosition measuredLayout rect = v_top
  <-> relativeToBottom measuredLayout rect <= relativeToTop rect.
Proof.
  unfold verticalPosition.
  destruct (gtb (relativeToBottom measuredLayout rect) (relativeToTop rect)) eqn:E.
  - apply gtb_true in E. split; [discriminate | intros H; lra].
  - apply gtb_false in E. tauto.
Qed.

Lemma horizontalPosition_left (measuredLayout rect : LayoutRect.t) :
  horizontalPosition measuredLayout rect = h_left
  <-> relativeToRight measuredLayout rect < relativeToLeft rect.
Proof.
  unfold horizontalPosition.
  destruct (gtb (relativeToLeft rect) (relativeToRight measuredLayout rect)) eqn:E.
  - apply gtb_true in E. tauto.
  - apply gtb_false in E. split; [discriminate | intros H; lra].
Qed.

(** The two scenarios of the specification. *)
Example quadrant_top_left :
  verticalPosition viewport_400x800 target_top_left = v_bottom
  /\ horizontalPosition viewport_400x800 target_top_left = h_right.
Proof. split; reflexivity. Qed.

Example quadrant_bottom_right :
  verticalPosition viewport_400x800 target_bottom_right = v_top
  /\ horizontalPosition viewport_400x800 target_bottom_right = h_left.
Proof. split; reflexivity. Qed.

(** The tooltip is given a [top] exactly on the side [bottom], and a [bottom]
    exactly on the side [top]. *)
Lemma tooltipStyle_vertical (props : ModalProps.t) (measuredLayout rect : LayoutRect.t) :
  match verticalPosition measuredLayout rect with
  | v_bottom =>
      ViewStyle.top (tooltipStyle props measuredLayout rect)
      = Some (LayoutRect.y rect + LayoutRect.height rect + ModalProps.margin props)
      /\ ViewStyle.bottom (tooltipStyle props measuredLayout rect) = None
  | v_top =>
      ViewStyle.bottom (tooltipStyle props measuredLayout rect)
      = Some (LayoutRect.height measuredLayout - (LayoutRect.y rect - ModalProps.margin props))
      /\ ViewStyle.top (tooltipStyle props measuredLayout rect) = None
  end.
Proof.
  unfold tooltipStyle.
  destruct (verticalPosition measuredLayout rect),
    (horizontalPosition measuredLayout rect); split; reflexivity.
Qed.

(** C1, as the specification words it, fails on the specification's own
    scenario: the centre of the target near the top-left corner is closer to
    the top edge, and the side chosen is [bottom]. *)
Lemma vertical_side_as_stated_fails :
  verticalPosition viewport_400x800 target_top_left = v_bottom
  /\ distanceToTopEdge target_top_left
     < distanceToBottomEdge viewport_400x800 target_top_left
  /\ ~ (distanceToBottomEdge viewport_400x800 target_top_left
        < distanceToTopEdge target_top_left).
Proof. split; [reflexivity |]. split; [reflexivity | discriminate]. Qed.

(** C1, amended. With [cy] the height of the centre of the target and [H]
    the height of the viewport, the side is [bottom] exactly when
    [cy < |cy - H|], and [top] otherwise; in a viewport of positive height
    that is: [bottom] exactly when the centre is closer to the top edge than
    to the bottom edge, and [top] otherwise, a tie included. *)
Theorem vertical_side_choice (measuredLayout rect : LayoutRect.t) :
  let cy := LayoutRect.y rect + LayoutRect.height rect / 2 in
  let H := LayoutRect.height measuredLayout in
  (verticalPosition measuredLayout rect = v_bottom <-> cy < Qabs (cy - H))
  /\ (verticalPosition measuredLayout rect = v_top <-> Qabs (cy - H) <= cy)
  /\ (0 < H ->
      (verticalPosition measuredLayout rect = v_bottom
       <-> distanceToTopEdge rect < distanceToBottomEdge measuredLayout rect)
      /\ (distanceToTopEdge rect == distanceToBottomEdge measuredLayout rect ->
          verticalPosition measuredLayout rect = v_top)).
Proof.
  intros cy H.
  split; [apply verticalPosition_bottom |].
  split; [apply verticalPosition_top |].
  intros HH.
  rewrite verticalPosition_bottom, verticalPosition_top.
  unfold distanceToTopEdge, distanceToBottomEdge, relativeToTop, relativeToBottom, center.
  cbn [ValueXY.y]. fold cy. fold H.
  split; [split |].
  - apply (Qabs_case (cy - 0)); apply (Qabs_case (cy - H)); intros; lra.
  - apply (Qabs_case (cy - 0)); apply (Qabs_case (cy - H)); intros; lra.
  - apply (Qabs_case (cy - 0)); apply (Qabs_case (cy - H)); intros; lra.
Qed.

Lemma shiftForStatusBar_horizontal (props : ModalProps.t) (plat : Platform.t)
    (rect : LayoutRect.t) :
  LayoutRect.x (shiftForStatusBar props plat rect) = LayoutRect.x rect
  /\ LayoutRect.width (shiftForStatusBar props plat rect) = LayoutRect.width rect
  /\ LayoutRect.height (shiftForStatusBar props plat rect) = LayoutRect.height rect.
Proof.
  unfold shiftForStatusBar.
  destruct (negb (ModalProps.androidStatusBarVisible props) && is_android plat);
    repeat split; reflexivity.
Qed.

(** The width left to a tooltip pinned by its right edge, and to one pinned by
    its left edge. *)
Lemma maxWidth_left_anchor (props : ModalProps.t) (measuredLayout rect : LayoutRect.t) :
  0 <= LayoutRect.width rect ->
  0 <= LayoutRect.x rect ->
  LayoutRect.x rect + LayoutRect.width rect <= LayoutRect.width measuredLayout ->
  2 * ModalProps.margin props < LayoutRect.width measuredLayout ->
  horizontalPosition measuredLayout rect = h_left ->
  0 < LayoutRect.width measuredLayout - tooltipRight props measuredLayout rect
      - ModalProps.margin props.
Proof.
  intros Hw Hx Hfit Hm Hside.
  apply horizontalPosition_left in Hside.
  unfold relativeToRight, relativeToLeft, center in Hside. cbn [ValueXY.x] in Hside.
  pose proof (Qle_Qabs (- (LayoutRect.x rect + LayoutRect.width rect / 2
                           - LayoutRect.width measuredLayout))) as Habs.
  rewrite Qabs_opp in Habs.
  unfold tooltipRight, Math_max.
  destruct (Qeq_bool _ 0) eqn:E; [qlra |].
  destruct (Q.max_spec (LayoutRect.width measuredLayout
                        - (LayoutRect.x rect + LayoutRect.width rect)) 0)
    as [[_ ->] | [_ ->]]; qlra.
Qed.

Lemma maxWidth_right_anchor (props : ModalProps.t) (measuredLayout rect : LayoutRect.t) :
  0 <= LayoutRect.width rect ->
  0 <= LayoutRect.x rect ->
  LayoutRect.x rect + LayoutRect.width rect <= LayoutRect.width measuredLayout ->
  2 * ModalProps.margin props < LayoutRect.width measuredLayout ->
  horizontalPosition measuredLayout rect = h_right ->
  0 < LayoutRect.width measuredLayout - tooltipLeft props rect - ModalProps.margin props.
Proof.
  intros Hw Hx Hfit Hm Hside.
  assert (Hle : relativeToLeft rect <= relativeToRight measuredLayout rect).
  { destruct (Qlt_le_dec (relativeToRight measuredLayout rect) (relativeToLeft rect))
      as [Hlt | Hle]; [| exact Hle].
    apply horizontalPosition_left in Hlt. congruence. }
  unfold relativeToRight, relativeToLeft, center in Hle. cbn [ValueXY.x] in Hle.
  assert (Habs : Qabs (LayoutRect.x rect + LayoutRect.width rect / 2
                       - LayoutRect.width measuredLayout)
                 == LayoutRect.width measuredLayout
                    - (LayoutRect.x rect + LayoutRect.width rect / 2)).
  { rewrite Qabs_neg by qlra. halves. ring. }
  rewrite Habs in Hle.
  unfold tooltipLeft, Math_max.
  destruct (Qeq_bool _ 0) eqn:E; [qlra |].
  destruct (Q.max_spec (LayoutRect.x rect) 0) as [[_ ->] | [_ ->]]; qlra.
Qed.

(** C5, as the specification words it, fails when the margin is half the
    width of the viewport or more: a target at the left edge of the 400 wide
    viewport, under a margin of 250, gets a [maxWidth] of -100. *)
Lemma tooltip_maxWidth_not_positive :
  let props := ModalProps.mk false "#fff" DEFAULT_ARROW_SIZE 250 8 in
  let target := LayoutRect.mk 0 20 60 60 in
  within viewport_400x800 target
  /\ ViewStyle.maxWidth
       (Placement.tooltipStyles
          (_animateMove props platform_ios viewport_400x800 target None None))
     = Some (-100 # 1)
  /\ ~ (0 < -100 # 1).
Proof.
  cbv zeta. split; [| split].
  - unfold within. cbn. repeat split; discriminate.
  - vm_compute. reflexivity.
  - discriminate.
Qed.

(** C5, amended. For a target within the viewport, when twice the margin is
    less than the width of the viewport, the tooltip gets a strictly positive
    [maxWidth], which is the width of the viewport minus the offset of the
    anchor chosen ([left] or [right]) minus the margin. *)
Theorem tooltip_maxWidth_positive (props : ModalProps.t) (plat : Platform.t)
    (layout rect : LayoutRect.t) (maskShape : option MaskShape)
    (stepBorderRadius : option number) :
  within layout rect ->
  2 * ModalProps.margin props < LayoutRect.width layout ->
  let tooltip :=
    Placement.tooltipStyles (_animateMove props plat layout rect maskShape stepBorderRadius) in
  exists maxWidth anchor : number,
    ViewStyle.maxWidth tooltip = Some maxWidth
    /\ 0 < maxWidth
    /\ maxWidth = LayoutRect.width layout - anchor - ModalProps.margin props
    /\ (ViewStyle.left tooltip = Some anchor /\ ViewStyle.right tooltip = None
        \/ ViewStyle.right tooltip = Some anchor /\ ViewStyle.left tooltip = None).
Proof.
  intros (Hx & Hw & Hfit & _) Hm tooltip.
  destruct (shiftForStatusBar_horizontal props plat rect) as (Ex & Ew & _).
  set (rect' := shiftForStatusBar props plat rect) in *.
  rewrite <- Ex in Hx, Hfit. rewrite <- Ew in Hw, Hfit.
  subst tooltip. unfold _animateMove. fold rect'.
  cbn [Placement.tooltipStyles]. unfold tooltipStyle.
  destruct (horizontalPosition layout rect') eqn:Hside; cbn [ViewStyle.maxWidth
    ViewStyle.left ViewStyle.right].
  - exists (LayoutRect.width layout - tooltipRight props layout rect'
            - ModalProps.margin props), (tooltipRight props layout rect').
    split; [reflexivity |]. split; [now apply maxWidth_left_anchor |].
    split; [reflexivity | right; split; reflexivity].
  - exists (LayoutRect.width layout - tooltipLeft props rect'
            - ModalProps.margin props), (tooltipLeft props rect').
    split; [reflexivity |]. split; [now apply maxWidth_right_anchor |].
    split; [reflexivity | left; split; reflexivity].
Qed.

Lemma tooltip_maxWidth_positive_witness :
  exists maxWidth anchor : number,
    ViewStyle.maxWidth
      (Placement.tooltipStyles
         (_animateMove ModalProps.default platform_ios viewport_400x800
            target_top_left None None)) = Some maxWidth
    /\ 0 < maxWidth
    /\ maxWidth = LayoutRect.width viewport_400x800 - anchor
                  - ModalProps.margin ModalProps.default
    /\ (ViewStyle.left
          (Placement.tooltipStyles
             (_animateMove ModalProps.default platform_ios viewport_400x800
                target_top_left None None)) = Some anchor
        /\ ViewStyle.right
             (Placement.tooltipStyles
                (_animateMove ModalProps.default platform_ios viewport_400x800
                   target_top_left None None)) = None
        \/ ViewStyle.right
             (Placement.tooltipStyles
                (_animateMove ModalProps.default platform_ios viewport_400x800
                   target_top_left None None)) = Some anchor
           /\ ViewStyle.left
                (Placement.tooltipStyles
                   (_animateMove ModalProps.default platform_ios viewport_400x800
                      target_top_left None None)) = None).
Proof.
  apply (tooltip_maxWidth_positive ModalProps.default platform_ios viewport_400x800
           target_top_left None None).
  - unfold within. cbn. repeat split; discriminate.
  - reflexivity.
Defined.

Local Close Scope Q_scope.

(** ** Highlight padding *)

(** C9. The rectangle that a step transition hands to the placement is the
    measured one made wider and higher by the highlight padding (the step's
    own if it has one, else the provider's), with its corner moved up and
    left by half the padding and down by the vertical offset: each side
    moves out by half the padding. The mask keeps that width and height. *)
Theorem moveModalToStep_pads_by_half_per_side (cfg : Config.t) (step : Step.t)
    (measurement : LayoutRect.t) (e : Engine.t) :
  Step.measure step = Some measurement ->
  let padding := match Step.highlightPadding step with
                 | Some p => p
                 | None => Config.highlightPadding cfg
                 end in
  exists (rect : LayoutRect.t) (placed : Placement.t),
    Engine.placement (moveModalToStep cfg (Some step) e) = Some placed
    /\ placed = _animateMove (Config.options cfg) (Config.platform cfg) (Config.layout cfg)
                  rect (Step.maskShape step) (Step.borderRadius step)
    /\ LayoutRect.width rect = (LayoutRect.width measurement + padding)%Q
    /\ LayoutRect.height rect = (LayoutRect.height measurement + padding)%Q
    /\ LayoutRect.x rect = (LayoutRect.x measurement - padding / 2)%Q
    /\ LayoutRect.y rect
       = (LayoutRect.y measurement - padding / 2 + Config.verticalOffset cfg)%Q
    /\ (LayoutRect.x rect + LayoutRect.width rect
        == LayoutRect.x measurement + LayoutRect.width measurement + padding / 2)%Q
    /\ (LayoutRect.y rect + LayoutRect.height rect
        == LayoutRect.y measurement + LayoutRect.height measurement + padding / 2
           + Config.verticalOffset cfg)%Q
    /\ LayoutRect.width (Placement.maskRect placed)
       = (LayoutRect.width measurement + padding)%Q
    /\ LayoutRect.height (Placement.maskRect placed)
       = (LayoutRect.height measurement + padding)%Q.
Proof.
  intros Hm padding.
  exists (highlightRect padding (Config.verticalOffset cfg) measurement).
  exists (_animateMove (Config.options cfg) (Config.platform cfg) (Config.layout cfg)
            (highlightRect padding (Config.verticalOffset cfg) measurement)
            (Step.maskShape step) (Step.borderRadius step)).
  split.
  { unfold moveModalToStep. rewrite Hm. reflexivity. }
  split; [reflexivity |].
  destruct (shiftForStatusBar_horizontal (Config.options cfg) (Config.platform cfg)
              (highlightRect padding (Config.verticalOffset cfg) measurement))
    as (_ & Ew & Eh).
  unfold _animateMove. cbn [Placement.maskRect LayoutRect.width LayoutRect.height].
  rewrite Ew, Eh. unfold highlightRect.
  cbn [LayoutRect.x LayoutRect.y LayoutRect.width LayoutRect.height].
  repeat split; try reflexivity.
  - change (padding / 2)%Q with (padding * (1 # 2))%Q. ring.
  - change (padding / 2)%Q with (padding * (1 # 2))%Q. ring.
Qed.

Lemma moveModalToStep_pads_by_half_per_side_witness :
  exists (rect : LayoutRect.t) (placed : Placement.t),
    Engine.placement (moveModalToStep config_default (Some step_a) Engine.initial)
    = Some placed
    /\ placed = _animateMove ModalProps.default platform_ios viewport_400x800
                  rect None None
    /\ LayoutRect.width rect = (60 + 4)%Q
    /\ LayoutRect.height rect = (60 + 4)%Q
    /\ LayoutRect.x rect = (20 - 4 / 2)%Q
    /\ LayoutRect.y rect = (20 - 4 / 2 + 0)%Q
    /\ (LayoutRect.x rect + LayoutRect.width rect == 20 + 60 + 4 / 2)%Q
    /\ (LayoutRect.y rect + LayoutRect.height rect == 20 + 60 + 4 / 2 + 0)%Q
    /\ LayoutRect.width (Placement.maskRect placed) = (60 + 4)%Q
    /\ LayoutRect.height (Placement.maskRect placed) = (60 + 4)%Q.
Proof.
  apply (moveModalToStep_pads_by_half_per_side config_default step_a target_top_left
           Engine.initial).
  reflexivity.
Defined.

(** ** Plain objects *)

Section JSObject_facts.
Context {V : Type}.
Implicit Types (o : JSObject.t V) (k : string) (v : V).

Lemma get_replace_eq k v o :
  is_Some (JSObject.get k o) -> JSObject.get k (JSObject.replace k v o) = Some v.
Proof.
  induction o as [| [k' v'] o IH]; cbn; intros H.
  - destruct H as [? H]. discriminate.
  - destruct (String.eqb k k') eqn:E; cbn.
    + rewrite String.eqb_refl. reflexivity.
    + rewrite E. auto.
Qed.

Lemma get_insert_index_eq n k v o :
  JSObject.get k o = None -> JSObject.get k (JSObject.insert_index n k v o) = Some v.
Proof.
  induction o as [| [k' v'] o IH]; cbn; intros H.
  - rewrite String.eqb_refl. reflexivity.
  - destruct (String.eqb k k') eqn:E; [discriminate |].
    destruct (JSObject.array_index k') as [n' |]; [destruct (n <? n')%N |]; cbn;
      rewrite ?String.eqb_refl, ?E; auto.
Qed.

Lemma get_app_eq k v o :
  JSObject.get k o = None -> JSObject.get k (o ++ [(k, v)]) = Some v.
Proof.
  induction o as [| [k' v'] o IH]; cbn; intros H.
  - rewrite String.eqb_refl. reflexivity.
  - destruct (String.eqb k k'); [discriminate | auto].
Qed.

Lemma get_set_eq k v o : JSObject.get k (JSObject.set k v o) = Some v.
Proof.
  unfold JSObject.set. destruct (JSObject.get k o) eqn:E.
  - apply get_replace_eq. rewrite E. eauto.
  - destruct (JSObject.array_index k); [apply get_insert_index_eq | apply get_app_eq];
      exact E.
Qed.

Lemma replace_same k v o : JSObject.get k o = Some v -> JSObject.replace k v o = o.
Proof.
  induction o as [| [k' v'] o IH]; cbn; intros H; [reflexivity |].
  destruct (String.eqb k k') eqn:E.
  - apply String.eqb_eq in E. congruence.
  - f_equal. auto.
Qed.

(** Writing the same entry a second time changes nothing. *)
Lemma set_set_same k v o : JSObject.set k v (JSObject.set k v o) = JSObject.set k v o.
Proof.
  unfold JSObject.set at 1. rewrite get_set_eq.
  apply replace_same, get_set_eq.
Qed.

End JSObject_facts.

(** ** The step registry *)

Lemma register_twice (state : StepsState) (step : Step.t) :
  stepsReducer (stepsReducer state (register step)) (register step)
  = stepsReducer state (register step).
Proof.
  unfold stepsReducer. cbv zeta. rewrite lookup_insert_eq. cbn.
  rewrite set_set_same. apply insert_insert_eq.
Qed.

Lemma insertByOrder_Permutation (a : Step.t) (l : list Step.t) :
  insertByOrder a l ≡ₚ a :: l.
Proof.
  induction l as [| b l IH]; cbn; [reflexivity |].
  destruct (Qle_bool (Step.order a) (Step.order b)); [reflexivity |].
  rewrite IH. apply Permutation_swap.
Qed.

Lemma sortByOrder_Permutation (l : list Step.t) : sortByOrder l ≡ₚ l.
Proof.
  induction l as [| a l IH]; cbn; [reflexivity |].
  rewrite insertByOrder_Permutation. now rewrite IH.
Qed.

Lemma insertByOrder_sorted (a : Step.t) (l : list Step.t) :
  StronglySorted orderLe l -> StronglySorted orderLe (insertByOrder a l).
Proof.
  induction 1 as [| b l Hs IH Hb]; cbn.
  - repeat constructor.
  - destruct (Qle_bool (Step.order a) (Step.order b)) eqn:E.
    + apply Qle_bool_iff in E. constructor; [constructor; assumption |].
      constructor; [exact E |].
      eapply Forall_impl; [exact Hb |]. unfold orderLe. intros c Hc. lra.
    + constructor; [exact IH |].
      rewrite insertByOrder_Permutation. constructor; [| exact Hb].
      unfold orderLe. destruct (Qlt_le_dec (Step.order b) (Step.order a)) as [H | H].
      * lra.
      * apply Qle_bool_iff in H. congruence.
Qed.

Lemma sortByOrder_sorted (l : list Step.t) : StronglySorted orderLe (sortByOrder l).
Proof.
  induction l as [| a l IH]; cbn; [constructor | now apply insertByOrder_sorted].
Qed.

(** The insertion keeps the steps of equal order in the order they came in:
    the sort is stable. *)
Lemma insertByOrder_filter (p : Step.t -> bool) (a : Step.t) (l : list Step.t) :
  (forall b, In b l -> p a = true -> p b = true ->
             Qle_bool (Step.order a) (Step.order b) = true) ->
  List.filter p (insertByOrder a l) = List.filter p (a :: l).
Proof.
  induction l as [| b l IH]; intros H; [reflexivity |].
  cbn [insertByOrder]. destruct (Qle_bool (Step.order a) (Step.order b)) eqn:E;
    [reflexivity |].
  cbn [List.filter]. rewrite IH by (intros; apply H; [right |..]; assumption).
  cbn [List.filter]. destruct (p a) eqn:Ea, (p b) eqn:Eb; try reflexivity.
  rewrite H in E; [discriminate | now left | reflexivity | exact Eb].
Qed.

Lemma sortByOrder_stable (o : number) (l : list Step.t) :
  List.filter (fun s => Qeq_bool (Step.order s) o) (sortByOrder l)
  = List.filter (fun s => Qeq_bool (Step.order s) o) l.
Proof.
  induction l as [| a l IH]; [reflexivity |].
  cbn [sortByOrder foldr]. fold (sortByOrder l).
  rewrite insertByOrder_filter.
  - cbn [List.filter]. now rewrite IH.
  - intros b _ Ha Hb. apply Qeq_bool_iff in Ha, Hb. apply Qle_bool_iff.
    rewrite Ha, Hb. apply Qle_refl.
Qed.

(** The ordered steps the engine holds are those of the active tour. *)
Lemma orderedSteps_active (e : Engine.t) (k : string) :
  Engine.activeTour e = Some k -> k <> "" ->
  orderedSteps e = orderedTourSteps (Engine.steps e) k.
Proof.
  intros H Hk. unfold orderedSteps, orderedTourSteps. rewrite H.
  destruct k; [congruence | reflexivity].
Qed.

(** C7, as the specification words it, fails: a step is registered under
    the empty tour key and that tour is started, so that it is the active
    tour and its step is visible, and the ordered steps are none. *)
Lemma orderedSteps_misses_empty_tour_key :
  Engine.activeTour engine_on_empty_key = Some ""
  /\ Engine.currentStep engine_on_empty_key = Some step_e
  /\ List.filter Step.visible
       (JSObject.values (default JSObject.empty (Engine.steps engine_on_empty_key !! "")))
     = [step_e]
  /\ orderedSteps engine_on_empty_key = [].
Proof. repeat split; vm_compute; reflexivity. Qed.

(** C7, amended. Registering a step a second time with the same data leaves
    the ordered steps as they were after the first time. The ordered steps
    are in ascending order, and for an active tour whose key is not the
    empty string they are exactly the visible steps registered for that
    tour. The ordered list that [start] computes for its tour key has both
    properties for every key. *)
Theorem orderedSteps_idempotent_and_sorted (e : Engine.t) (step : Step.t) :
  orderedSteps (registerStep step (registerStep step e))
  = orderedSteps (registerStep step e)
  /\ StronglySorted orderLe (orderedSteps e)
  /\ (forall activeTour : string,
        Engine.activeTour e = Some activeTour -> activeTour <> "" ->
        let registered :=
          JSObject.values (default JSObject.empty (Engine.steps e !! activeTour)) in
        orderedSteps e ≡ₚ List.filter Step.visible registered
        /\ (forall s, In s (orderedSteps e)
                      <-> In s registered /\ Step.visible s = true))
  /\ (forall tourKey : string,
        let state := Engine.steps e in
        let once := stepsReducer state (register step) in
        let twice := stepsReducer once (register step) in
        let registered := JSObject.values (default JSObject.empty (state !! tourKey)) in
        orderedTourSteps twice tourKey = orderedTourSteps once tourKey
        /\ orderedTourSteps state tourKey ≡ₚ List.filter Step.visible registered
        /\ (forall s, In s (orderedTourSteps state tourKey)
                      <-> In s registered /\ Step.visible s = true)
        /\ StronglySorted orderLe (orderedTourSteps state tourKey)).
Proof.
  assert (Hperm : forall tourKey,
             orderedTourSteps (Engine.steps e) tourKey
             ≡ₚ List.filter Step.visible
                  (JSObject.values
                     (default JSObject.empty (Engine.steps e !! tourKey))))
    by (intros; apply sortByOrder_Permutation).
  assert (Hin : forall tourKey s,
             In s (orderedTourSteps (Engine.steps e) tourKey)
             <-> In s (JSObject.values
                         (default JSObject.empty (Engine.steps e !! tourKey)))
                 /\ Step.visible s = true).
  { intros tourKey s. rewrite <- filter_In.
    split; apply Permutation_in; [| symmetry]; apply Hperm. }
  split; [| split; [| split]].
  - unfold registerStep, Engine.dispatch, orderedSteps.
    cbn [Engine.steps Engine.activeTour]. now rewrite register_twice.
  - unfold orderedSteps. destruct (Engine.activeTour e) as [k |]; [| constructor].
    destruct (truthy (Some k)); [apply sortByOrder_sorted | constructor].
  - intros k Hactive Hk registered.
    rewrite (orderedSteps_active e k Hactive Hk).
    split; [apply Hperm | apply Hin].
  - intros tourKey state once twice registered. subst once twice.
    split; [now rewrite register_twice |].
    split; [apply Hperm |]. split; [apply Hin | apply sortByOrder_sorted].
Qed.

Lemma orderedSteps_idempotent_and_sorted_witness :
  orderedSteps engine_on_a ≡ₚ [step_a; step_b]
  /\ orderedSteps (registerStep step_a (registerStep step_a engine_on_a))
     = orderedSteps (registerStep step_a engine_on_a).
Proof.
  destruct (orderedSteps_idempotent_and_sorted engine_on_a step_a)
    as (Htwice & _ & Hactive & _).
  destruct (Hactive "t") as (Hperm & _).
  - reflexivity.
  - discriminate.
  - split; [exact Hperm | exact Htwice].
Defined.

Lemma registerStep_twice (step : Step.t) (e : Engine.t) :
  registerStep step (registerStep step e) = registerStep step e.
Proof.
  unfold registerStep, Engine.dispatch. cbn [Engine.steps Engine.activeTour
    Engine.currentStep Engine.visible Engine.startTries Engine.scrollViewRef
    Engine.placement Engine.emitted Engine.warnings].
  now rewrite register_twice.
Qed.

(** ** The engine *)


(** What the parts of a transition leave alone. *)
Lemma moveModalToStep_frame (cfg : Config.t) (step : option Step.t) (e : Engine.t) :
  let e' := moveModalToStep cfg step e in
  Engine.steps e' = Engine.steps e
  /\ Engine.activeTour e' = Engine.activeTour e
  /\ Engine.currentStep e' = Engine.currentStep e
  /\ Engine.visible e' = Engine.visible e
  /\ Engine.startTries e' = Engine.startTries e
  /\ Engine.scrollViewRef e' = Engine.scrollViewRef e
  /\ Engine.emitted e' = Engine.emitted e
  /\ Engine.warnings e' = Engine.warnings e.
Proof.
  unfold moveModalToStep. destruct step as [step |]; [| cbn; tauto].
  destruct (Step.measure step); cbn; tauto.
Qed.

Lemma setCurrentStep_frame (cfg : Config.t) (step : option Step.t) (move : bool)
    (e : Engine.t) :
  let e' := setCurrentStep cfg step move e in
  Engine.steps e' = Engine.steps e
  /\ Engine.activeTour e' = Engine.activeTour e
  /\ Engine.currentStep e' = step
  /\ Engine.visible e' = Engine.visible e
  /\ Engine.startTries e' = Engine.startTries e
  /\ Engine.scrollViewRef e' = Engine.scrollViewRef e
  /\ Engine.emitted e' = Engine.emitted e
  /\ Engine.warnings e' = Engine.warnings e.
Proof.
  unfold setCurrentStep. destruct move; [| cbn; tauto].
  destruct (moveModalToStep_frame cfg step (Engine.setCurrentStepState step e))
    as (H1 & H2 & H3 & H4 & H5 & H6 & H7 & H8).
  cbv zeta in *. rewrite H1, H2, H3, H4, H5, H6, H7, H8. cbn. tauto.
Qed.

Lemma withScrollView_frame (scrollView : option ScrollView) (e : Engine.t) :
  let e' := withScrollView scrollView e in
  Engine.steps e' = Engine.steps e
  /\ Engine.activeTour e' = Engine.activeTour e
  /\ Engine.currentStep e' = Engine.currentStep e
  /\ Engine.visible e' = Engine.visible e
  /\ Engine.startTries e' = Engine.startTries e
  /\ Engine.placement e' = Engine.placement e
  /\ Engine.emitted e' = Engine.emitted e
  /\ Engine.warnings e' = Engine.warnings e.
Proof. destruct scrollView; cbn; tauto. Qed.

(** *** Starting a tour *)

Lemma start_aborts (cfg : Config.t) (tourKey : string) (fromStep : option string)
    (scrollView : option ScrollView) (e : Engine.t) :
  MAX_START_TRIES < Engine.startTries e ->
  start cfg tourKey fromStep scrollView e
  = (Engine.warn (noStepsWarning tourKey)
       (Engine.setStartTries 0 (withScrollView scrollView e)), Aborted).
Proof.
  intros H. unfold start. cbv zeta.
  destruct (withScrollView_frame scrollView e) as (_ & _ & _ & _ & -> & _).
  apply Nat.ltb_lt in H. now rewrite H.
Qed.

Lemma start_defers (cfg : Config.t) (tourKey : string) (fromStep : option string)
    (scrollView : option ScrollView) (e : Engine.t) :
  Engine.startTries e <= MAX_START_TRIES ->
  firstStepOf (Engine.steps e) tourKey fromStep = None ->
  start cfg tourKey fromStep scrollView e
  = (Engine.setStartTries (Engine.startTries e + 1) (withScrollView scrollView e),
     Deferred).
Proof.
  intros H Hnone. unfold start. cbv zeta.
  destruct (withScrollView_frame scrollView e) as (-> & _ & _ & _ & -> & _).
  apply Nat.ltb_ge in H. now rewrite H, Hnone.
Qed.

Lemma start_starts (cfg : Config.t) (tourKey : string) (fromStep : option string)
    (scrollView : option ScrollView) (e : Engine.t) (firstStep : Step.t) :
  Engine.startTries e <= MAX_START_TRIES ->
  firstStepOf (Engine.steps e) tourKey fromStep = Some firstStep ->
  let r := start cfg tourKey fromStep scrollView e in
  snd r = Started
  /\ Engine.activeTour (fst r) = Some tourKey
  /\ Engine.currentStep (fst r) = Some firstStep
  /\ Engine.visible (fst r) = true
  /\ Engine.emitted (fst r) = Engine.emitted e ++ [ev_start tourKey]
  /\ Engine.warnings (fst r) = Engine.warnings e
  /\ Engine.steps (fst r) = Engine.steps e.
Proof.
  intros H Hfirst. unfold start. cbv zeta.
  destruct (withScrollView_frame scrollView e)
    as (Es & Ea & Ec & Ev & Et & Ep & Ee & Ew). cbv zeta in *.
  apply Nat.ltb_ge in H. rewrite Es, Et, H, Hfirst.
  set (e1 := Engine.emit (ev_start tourKey)
               (Engine.setActiveTour (Some tourKey) (withScrollView scrollView e))).
  set (e2 := setCurrentStep cfg (Some firstStep) true e1).
  destruct (setCurrentStep_frame cfg (Some firstStep) true e1)
    as (Fs & Fa & Fc & Fv & Ft & Fr & Fe & Fw). cbv zeta in *. fold e2 in Fs, Fa, Fc, Fe, Fw.
  destruct (moveModalToStep_frame cfg (Some firstStep) e2)
    as (Gs & Ga & Gc & Gv & Gt & Gr & Ge & Gw). cbv zeta in *.
  unfold setVisibility.
  destruct (negb (Bool.eqb (Engine.visible (moveModalToStep cfg (Some firstStep) e2)) true));
    engine_fields; rewrite Gs, Ga, Gc, Ge, Gw, Fs, Fa, Fc, Fe, Fw; subst e1;
    engine_fields; rewrite Es, Ee, Ew; repeat split; reflexivity.
Qed.







(** C2, as the specification words it, fails: with tour [t] active, starting
    tour [u] makes [u] the active tour. *)
Lemma start_while_active_is_no_noop :
  Engine.activeTour engine_on_a = Some "t"
  /\ Engine.activeTour (fst (start config_default "u" None None engine_on_a)) = Some "u"
  /\ Engine.emitted (fst (start config_default "u" None None engine_on_a))
     = [ev_start "t"; ev_start "u"].
Proof. repeat split; vm_compute; reflexivity. Qed.

(** C2, amended. While a tour is active, a start for another tour key never
    stops the active tour: the events it adds are none or the one [start] of
    the new key. When a first step of the new tour is found and the retry
    counter is within its cap, the new key replaces the active tour, its
    [start] event is emitted and its first step becomes current; when no
    first step is found, or the counter is above the cap, the active tour
    and the events stay as they were. *)
Theorem start_while_active (cfg : Config.t) (e : Engine.t) (active tourKey : string)
    (fromStep : option string) (scrollView : option ScrollView) :
  Engine.activeTour e = Some active ->
  tourKey <> active ->
  let r := start cfg tourKey fromStep scrollView e in
  (Engine.emitted (fst r) = Engine.emitted e
   \/ Engine.emitted (fst r) = Engine.emitted e ++ [ev_start tourKey])
  /\ match firstStepOf (Engine.steps e) tourKey fromStep with
     | Some firstStep =>
         Engine.startTries e <= MAX_START_TRIES ->
         snd r = Started
         /\ Engine.activeTour (fst r) = Some tourKey
         /\ Engine.currentStep (fst r) = Some firstStep
         /\ Engine.emitted (fst r) = Engine.emitted e ++ [ev_start tourKey]
     | None =>
         Engine.activeTour (fst r) = Some active
         /\ Engine.emitted (fst r) = Engine.emitted e
     end
  /\ (MAX_START_TRIES < Engine.startTries e ->
      snd r = Aborted
      /\ Engine.activeTour (fst r) = Some active
      /\ Engine.emitted (fst r) = Engine.emitted e).
Proof.
  intros Hactive Hne r.
  destruct (withScrollView_frame scrollView e)
    as (Es & Ea & Ec & Ev & Et & Ep & Ee & Ew). cbv zeta in *.
  assert (Habort : MAX_START_TRIES < Engine.startTries e ->
                   snd r = Aborted
                   /\ Engine.activeTour (fst r) = Some active
                   /\ Engine.emitted (fst r) = Engine.emitted e).
  { intros H. subst r. rewrite start_aborts by exact H. engine_fields.
    rewrite Ea, Ee. auto. }
  destruct (le_lt_dec (Engine.startTries e) MAX_START_TRIES) as [Hle | Hgt].
  - destruct (firstStepOf (Engine.steps e) tourKey fromStep) as [firstStep |] eqn:Hfirst.
    + destruct (start_starts cfg tourKey fromStep scrollView e firstStep Hle Hfirst)
        as (H1 & H2 & H3 & _ & H5 & _). fold r in H1, H2, H3, H5.
      split; [right; exact H5 |]. split; [auto | exact Habort].
    + subst r. rewrite start_defers by assumption. engine_fields.
      rewrite Ea, Ee. split; [left; reflexivity |]. split; [auto | lia].
  - destruct (Habort Hgt) as (H1 & H2 & H3).
    split; [left; exact H3 |]. split; [| exact Habort].
    destruct (firstStepOf (Engine.steps e) tourKey fromStep); [lia | auto].
Qed.

Lemma start_while_active_witness :
  Engine.activeTour (fst (start config_default "u" None None engine_on_a)) = Some "u"
  /\ Engine.currentStep (fst (start config_default "u" None None engine_on_a))
     = Some step_c.
Proof.
  destruct (start_while_active config_default engine_on_a "t" "u" None None)
    as (_ & Hstart & _).
  - reflexivity.
  - discriminate.
  - change (firstStepOf (Engine.steps engine_on_a) "u" None) with (Some step_c) in Hstart.
    destruct Hstart as (_ & Ha & Hc & _).
    + change (Engine.startTries engine_on_a) with 0. lia.
    + split; [exact Ha | exact Hc].
Defined.

(** *** Indices *)

Lemma findIndexFrom_first {A : Type} (p : A -> bool) (l : list A) :
  forall (i : nat) (a : A) (z : Z),
    l !! i = Some a ->
    p a = true ->
    (forall k s, k < i -> l !! k = Some s -> p s = false) ->
    findIndexFrom z p l = (z + Z.of_nat i)%Z.
Proof.
  induction l as [| b l IH]; intros i a z Hi Ha Hbefore; [discriminate |].
  destruct i as [| i]; cbn [findIndexFrom].
  - cbn in Hi. injection Hi as ->. rewrite Ha. lia.
  - rewrite (Hbefore 0 b) by (reflexivity || lia).
    rewrite (IH i a (z + 1)%Z); [lia | exact Hi | exact Ha |].
    intros k s Hk Hs. apply (Hbefore (S k) s); [lia | exact Hs].
Qed.

Lemma at_index_nat {A : Type} (l : list A) (i : nat) :
  at_index l (Z.of_nat i) = l !! i.
Proof.
  unfold at_index. destruct (Z.ltb_spec (Z.of_nat i) 0); [lia |].
  now rewrite Nat2Z.id.
Qed.

Lemma orderedSteps_setCurrentStepState (s : option Step.t) (e : Engine.t) :
  orderedSteps (Engine.setCurrentStepState s e) = orderedSteps e.
Proof. reflexivity. Qed.

Lemma orderedSteps_nonempty_active (e : Engine.t) :
  orderedSteps e <> [] ->
  exists k, Engine.activeTour e = Some k /\ truthy (Some k) = true.
Proof.
  unfold orderedSteps. destruct (Engine.activeTour e) as [k |]; [| congruence].
  destruct (truthy (Some k)) eqn:E; [eauto | congruence].
Qed.

(** The index of a current step whose order is first met at position [i]. *)
Lemma stepIndex_first (e : Engine.t) (c a : Step.t) (i : nat) :
  Engine.currentStep e = Some c ->
  orderedSteps e !! i = Some a ->
  (Step.order a == Step.order c)%Q ->
  (forall k s, k < i -> orderedSteps e !! k = Some s ->
               ~ (Step.order s == Step.order c)%Q) ->
  stepIndex e = Z.of_nat i.
Proof.
  intros Hc Hi Ho Hbefore. unfold stepIndex, findIndex. rewrite Hc.
  rewrite (findIndexFrom_first _ _ i a); [lia | exact Hi | |].
  - now apply Qeq_bool_iff.
  - intros k s Hk Hs. apply not_true_is_false. intros E.
    apply Qeq_bool_iff in E. exact (Hbefore k s Hk Hs E).
Qed.

(** *** Navigation *)




(** C10. The index of the current step is the position of the first ordered
    step that has its order; the names play no part. So when two steps [a]
    and [b] of the ordered list share an order that is first met at [a],
    having [b] current is reported, and navigated from, as having [a]
    current: same index and step number, same first-step flag, never the
    last step, [goToNext] leads to the step after [a] and [goToPrev] to the
    step before [a]. *)
Theorem stepIndex_first_of_equal_order (cfg : Config.t) (e : Engine.t) (i j : nat)
    (a b : Step.t) :
  orderedSteps e !! i = Some a ->
  orderedSteps e !! j = Some b ->
  i < j ->
  (Step.order a == Step.order b)%Q ->
  (forall k s, k < i -> orderedSteps e !! k = Some s ->
               ~ (Step.order s == Step.order a)%Q) ->
  let on_a := Engine.setCurrentStepState (Some a) e in
  let on_b := Engine.setCurrentStepState (Some b) e in
  stepIndex on_b = Z.of_nat i
  /\ stepIndex on_b = stepIndex on_a
  /\ currentStepNumber on_b = (Z.of_nat i + 1)%Z
  /\ isFirstStep on_b = (i =? 0)
  /\ isLastStep on_b = false
  /\ (exists next : Step.t,
        orderedSteps e !! S i = Some next
        /\ goToNext cfg on_b
           = setCurrentStep cfg (Some next) true
               (Engine.emit
                  (ev_stepChange (Engine.activeTour e) next (Z.of_nat i + 2)) on_b))
  /\ goToPrev cfg on_b
     = match i with
       | O => on_b
       | S i' =>
           match orderedSteps e !! i' with
           | Some prev =>
               setCurrentStep cfg (Some prev) true
                 (Engine.emit
                    (ev_stepChange (Engine.activeTour e) prev (Z.of_nat i)) on_b)
           | None => on_b
           end
       end.
Proof.
  intros Hi Hj Hij Hab Hfirst on_a on_b. subst on_a on_b.
  set (on_a := Engine.setCurrentStepState (Some a) e).
  set (on_b := Engine.setCurrentStepState (Some b) e).
  assert (Hlist : orderedSteps on_b = orderedSteps e) by reflexivity.
  assert (Hb : stepIndex on_b = Z.of_nat i).
  { apply (stepIndex_first on_b b a); [reflexivity | exact Hi | exact Hab |].
    intros k s Hk Hs E. apply (Hfirst k s Hk Hs). now rewrite Hab. }
  assert (Ha : stepIndex on_a = Z.of_nat i).
  { apply (stepIndex_first on_a a a); [reflexivity | exact Hi | reflexivity |].
    exact Hfirst. }
  assert (Hlen : j < length (orderedSteps e)) by (eapply lookup_lt_Some; exact Hj).
  split; [exact Hb |]. split; [congruence |].
  split; [unfold currentStepNumber; now rewrite Hb |].
  split.
  { unfold isFirstStep. rewrite Hb. destruct i; [reflexivity |].
    apply Z.eqb_neq. lia. }
  split.
  { unfold isLastStep. rewrite Hb. apply Z.eqb_neq.
    rewrite Hlist. lia. }
  split.
  - destruct (lookup_lt_is_Some_2 (orderedSteps e) (S i)) as [next Hnext]; [lia |].
    exists next. split; [exact Hnext |].
    unfold goToNext. rewrite Hb.
    replace (Z.of_nat i + 1)%Z with (Z.of_nat (S i)) by lia.
    rewrite at_index_nat, Hlist, Hnext. reflexivity.
  - unfold goToPrev. rewrite Hb, Hlist.
    destruct i as [| i'].
    + reflexivity.
    + replace (Z.of_nat (S i') - 1)%Z with (Z.of_nat i') by lia.
      rewrite at_index_nat. reflexivity.
Qed.

Lemma stepIndex_first_of_equal_order_witness :
  stepIndex engine_on_b = 0%Z
  /\ currentStepNumber engine_on_b = 1%Z
  /\ isFirstStep engine_on_b = true
  /\ isLastStep engine_on_b = false.
Proof.
  destruct (stepIndex_first_of_equal_order config_default engine_on_b 0 1 step_a step_b)
    as (H1 & _ & H3 & H4 & H5 & _).
  - reflexivity.
  - reflexivity.
  - lia.
  - reflexivity.
  - intros k s Hk. lia.
  - change (Engine.setCurrentStepState (Some step_b) engine_on_b) with engine_on_b
      in H1, H3, H4, H5.
    repeat split; assumption.
Defined.

(** ** The event bus *)

Section emitter_facts.
Import TourEventEmitter.
Context {Data Host Error : Type}.
Variable call : Callback -> Data -> t * Host -> (t * Host) * Completion Error.
Variable event : TourEventType.t.
Variable data : Data.

Abbreviation Emission := (Emission Data Host Error).

Lemma invoke_calls (callback : Callback) (r : Emission) :
  map fst (calls (invoke call event data callback r))
  = map fst (calls r) ++ [(callback, data)].
Proof.
  unfold invoke. destruct (call callback data (world r)) as [w c]. cbn.
  now rewrite map_app.
Qed.

Lemma invoke_console (callback : Callback) (r : Emission) :
  console_error r = thrown event (calls r) ->
  console_error (invoke call event data callback r)
  = thrown event (calls (invoke call event data callback r)).
Proof.
  intros H. unfold invoke. destruct (call callback data (world r)) as [w c]. cbn.
  unfold thrown in *. rewrite omap_app, <- H. cbn.
  destruct c; cbn; [now rewrite app_nil_r | reflexivity].
Qed.

Lemma deliver_calls (callbacks : list Callback) :
  forall r : Emission,
    map fst (calls (deliver call event data callbacks r))
    = map fst (calls r) ++ map (fun callback => (callback, data)) callbacks.
Proof.
  induction callbacks as [| callback callbacks IH]; intros r; cbn.
  - now rewrite app_nil_r.
  - unfold deliver in IH. rewrite IH, invoke_calls, <- app_assoc. reflexivity.
Qed.

Lemma deliver_console (callbacks : list Callback) :
  forall r : Emission,
    console_error r = thrown event (calls r) ->
    console_error (deliver call event data callbacks r) = thrown event (calls (deliver call event data callbacks r)).
Proof.
  induction callbacks as [| callback callbacks IH]; intros r H; cbn; [exact H |].
  apply IH, invoke_console, H.
Qed.

Lemma deliver_leavesSet (a : nat) (callbacks : list Callback) :
  leavesSet call a ->
  forall r : Emission,
    setAt (fst (world (deliver call event data callbacks r))) a = setAt (fst (world r)) a.
Proof.
  intros Hframe. induction callbacks as [| callback callbacks IH]; intros r; cbn;
    [reflexivity |].
  unfold deliver in IH. rewrite IH. unfold invoke.
  pose proof (Hframe callback data (world r)) as H.
  destruct (call callback data (world r)) as [w c]. exact H.
Qed.

(** Over a [Set] that the callbacks leave alone, the loop calls the
    callbacks from entry [i] on, each once. *)
Lemma forEach_leavesSet (a : nat) (sd : SetData) :
  leavesSet call a ->
  forall (fuel i : nat) (r : Emission),
    setAt (fst (world r)) a = sd ->
    length sd - i < fuel ->
    forEach call fuel a i event data r = Some (deliver call event data (setValues (drop i sd)) r).
Proof.
  intros Hframe. induction fuel as [| fuel IH]; intros i r Hsd Hfuel; [lia |].
  cbn [forEach]. rewrite Hsd.
  destruct (sd !! i) as [[callback |] |] eqn:Hi;
    try (pose proof (lookup_lt_Some _ _ _ Hi) as Hlt).
  - rewrite IH.
    + rewrite (drop_S sd (Some callback) i Hi). reflexivity.
    + unfold invoke. pose proof (Hframe callback data (world r)) as H.
      destruct (call callback data (world r)) as [w c].
      cbn [world fst] in H |- *. now rewrite H.
    + lia.
  - rewrite IH by (assumption || lia).
    rewrite (drop_S sd None i Hi). reflexivity.
  - apply lookup_ge_None in Hi. rewrite drop_ge by exact Hi. reflexivity.
Qed.

(** Swallowing what the callbacks throw changes neither the calls made nor
    the state they leave: throwing has no part in the delivery. *)
Lemma forEach_quiet (a : nat) :
  forall (fuel i : nat) (r q : Emission),
    world q = world r ->
    map fst (calls q) = map fst (calls r) ->
    match forEach call fuel a i event data r,
          forEach (quiet call) fuel a i event data q with
    | Some r', Some q' => world q' = world r' /\ map fst (calls q') = map fst (calls r')
    | None, None => True
    | _, _ => False
    end.
Proof.
  induction fuel as [| fuel IH]; intros i r q Hw Hc; [exact I |].
  cbn [forEach]. rewrite Hw.
  destruct (setAt (fst (world r)) a !! i) as [[callback |] |].
  - apply IH.
    + unfold invoke, quiet. rewrite Hw.
      destruct (call callback data (world r)) as [w c]. reflexivity.
    + rewrite !invoke_calls.
      unfold invoke, quiet. rewrite Hw.
      destruct (call callback data (world r)) as [w c]. cbn.
      rewrite !map_app, Hc. reflexivity.
  - apply IH; assumption.
  - split; assumption.
Qed.

Lemma forEach_log (a : nat) :
  forall (fuel i : nat) (r r' : Emission),
    forEach call fuel a i event data r = Some r' ->
    console_error r = thrown event (calls r)
    /\ Forall (fun c => snd (fst c) = data) (calls r) ->
    console_error r' = thrown event (calls r')
    /\ Forall (fun c => snd (fst c) = data) (calls r').
Proof.
  induction fuel as [| fuel IH]; intros i r r' Hrun Hr; [discriminate |].
  cbn [forEach] in Hrun.
  destruct (setAt (fst (world r)) a !! i) as [[callback |] |].
  - apply (IH _ _ _ Hrun). destruct Hr as [Hlog Hdata].
    split; [now apply invoke_console |].
    unfold invoke. destruct (call callback data (world r)) as [w c]. cbn [calls].
    apply Forall_app. split; [exact Hdata | repeat constructor].
  - exact (IH _ _ _ Hrun Hr).
  - now injection Hrun as <-.
Qed.

(** The loop of the code, one [try]/[catch] after the other, is log and
    continue. *)
Lemma logAndContinue_snoc (callbacks : list Callback) (callback : Callback) :
  forall w : t * Host,
    logAndContinue call event data (callbacks ++ [callback]) w
    = invoke call event data callback (logAndContinue call event data callbacks w).
Proof.
  induction callbacks as [| c0 callbacks IH]; intros w.
  - cbn [app logAndContinue]. unfold invoke. cbn [world calls console_error].
    destruct (call callback data w) as [w' c]. destruct c; reflexivity.
  - cbn [app logAndContinue]. destruct (call c0 data w) as [w0 c]. rewrite IH.
    unfold invoke. cbn [world calls console_error].
    destruct (call callback data (world (logAndContinue call event data callbacks w0)))
      as [w' c']. destruct c, c'; reflexivity.
Qed.

Lemma called_invoke (callback : Callback) (r : Emission) :
  called (invoke call event data callback r) = called r ++ [callback].
Proof.
  unfold called, invoke. destruct (call callback data (world r)) as [w c]. cbn [calls].
  now rewrite map_app.
Qed.

Lemma deliver_logAndContinue (callbacks : list Callback) (w : t * Host) :
  forall before : list Callback,
    deliver call event data callbacks (logAndContinue call event data before w)
    = logAndContinue call event data (before ++ callbacks) w.
Proof.
  induction callbacks as [| callback callbacks IH]; intros before.
  - now rewrite app_nil_r.
  - change (deliver call event data (callback :: callbacks)
              (logAndContinue call event data before w))
      with (deliver call event data callbacks
              (invoke call event data callback (logAndContinue call event data before w))).
    rewrite <- logAndContinue_snoc, IH, <- app_assoc. reflexivity.
Qed.

Lemma forEach_logAndContinue (a : nat) (w : t * Host) :
  forall (fuel i : nat) (r r' : Emission),
    forEach call fuel a i event data r = Some r' ->
    r = logAndContinue call event data (called r) w ->
    r' = logAndContinue call event data (called r') w.
Proof.
  induction fuel as [| fuel IH]; intros i r r' Hrun Hr; [discriminate |].
  cbn [forEach] in Hrun.
  destruct (setAt (fst (world r)) a !! i) as [[callback |] |].
  - apply (IH _ _ _ Hrun).
    rewrite called_invoke, logAndContinue_snoc. now rewrite <- Hr.
  - exact (IH _ _ _ Hrun Hr).
  - now injection Hrun as <-.
Qed.

(** C8. An emission is log and continue over the callbacks that it calls:
    each is run with the data of the event on the state that the one before
    it left, whether that one returned or threw, and the errors logged are
    those of the calls that threw. So an emission delivers the same calls,
    and leaves the same state, whether its callbacks throw or swallow their
    errors: throwing stops nothing. When the callbacks leave the
    subscriptions of the event alone, the callbacks called are those
    subscribed, every one, in the order of subscription. *)
Theorem emit_isolates_listener_errors (fuel : nat) (w : t * Host) :
  option_map delivered (emit call fuel event data w)
  = option_map delivered (emit (quiet call) fuel event data w)
  /\ (forall r : Emission,
        emit call fuel event data w = Some r ->
        r = logAndContinue call event data (called r) w
        /\ console_error r = thrown event (calls r)
        /\ Forall (fun c => snd (fst c) = data) (calls r))
  /\ ((forall a, listeners (fst w) event = Some a ->
                 leavesSet call a /\ length (setAt (fst w) a) < fuel) ->
      exists r : Emission,
        emit call fuel event data w = Some r
        /\ r = logAndContinue call event data (subscribed event (fst w)) w
        /\ map fst (calls r)
           = map (fun callback => (callback, data)) (subscribed event (fst w))).
Proof.
  unfold emit, subscribed.
  destruct (listeners (fst w) event) as [a |] eqn:Ha.
  - split; [| split].
    + pose proof (forEach_quiet a fuel 0 (mkEmission w [] []) (mkEmission w [] [])
                    eq_refl eq_refl) as H.
      destruct (forEach call fuel a 0 event data (mkEmission w [] [])) as [r |],
        (forEach (quiet call) fuel a 0 event data (mkEmission w [] [])) as [q |];
        try contradiction; [| reflexivity].
      destruct H as [Hw Hc]. unfold delivered. cbn. now rewrite Hw, Hc.
    + intros r Hrun. split.
      * exact (forEach_logAndContinue a w _ _ _ _ Hrun eq_refl).
      * apply (forEach_log a _ _ _ _ Hrun). split; [reflexivity | constructor].
    + intros H. destruct (H a eq_refl) as [Hframe Hfuel].
      rewrite (forEach_leavesSet a (setAt (fst w) a) Hframe) by (reflexivity || lia).
      eexists. split; [reflexivity |]. rewrite drop_0. split.
      * exact (deliver_logAndContinue (setValues (setAt (fst w) a)) w []).
      * now rewrite deliver_calls.
  - split; [reflexivity |]. split.
    + intros r [= <-]. split; [reflexivity |]. split; [reflexivity | constructor].
    + intros _. eexists. split; [reflexivity |]. split; reflexivity.
Qed.

End emitter_facts.

Lemma emit_isolates_listener_errors_witness :
  exists r : TourEventEmitter.Emission string nat string,
    TourEventEmitter.emit TourEventEmitter.example_call 4 TourEventType.start "t"
      (TourEventEmitter.example_emitter, 0) = Some r
    /\ r = TourEventEmitter.mkEmission
             (TourEventEmitter.example_emitter, 3)
             [(5, "t", TourEventEmitter.Returned);
              (7, "t", TourEventEmitter.Threw "boom");
              (9, "t", TourEventEmitter.Returned)]
             [(TourEventType.start, "boom")]
    /\ map fst (TourEventEmitter.calls r) = [(5, "t"); (7, "t"); (9, "t")].
Proof.
  destruct (emit_isolates_listener_errors TourEventEmitter.example_call
              TourEventType.start "t" 4 (TourEventEmitter.example_emitter, 0))
    as (_ & _ & H).
  apply H. intros a Ha. injection Ha as <-. split.
  - intros callback data w. reflexivity.
  - cbn. lia.
Defined.

(** In that emission the callback that throws is the second of three: the
    third is called all the same, and the error is logged. *)
Example emit_example :
  TourEventEmitter.emit TourEventEmitter.example_call 4 TourEventType.start "t"
    (TourEventEmitter.example_emitter, 0)
  = Some (TourEventEmitter.mkEmission
            (TourEventEmitter.example_emitter, 3)
            [(5, "t", TourEventEmitter.Returned);
             (7, "t", TourEventEmitter.Threw "boom");
             (9, "t", TourEventEmitter.Returned)]
            [(TourEventType.start, "boom")]).
Proof. reflexivity. Qed.

(** * Further properties of the code *)

Local Open Scope Q_scope.

(** ** Placement *)

(** X1. The tooltip is pinned by its right edge ([left]) exactly when the
    centre of the target is farther right than it is distant from the right
    edge, else by its left edge ([right]); in a viewport of positive width
    that is: [left] exactly when the centre is closer to the right edge than
    to the left edge, that is right of the middle of the viewport, and
    [right] otherwise, a tie included. *)
Theorem horizontal_side_choice (measuredLayout rect : LayoutRect.t) :
  let cx := LayoutRect.x rect + LayoutRect.width rect / 2 in
  let W := LayoutRect.width measuredLayout in
  (horizontalPosition measuredLayout rect = h_left <-> Qabs (cx - W) < cx)
  /\ (horizontalPosition measuredLayout rect = h_right <-> cx <= Qabs (cx - W))
  /\ (0 < W ->
      (horizontalPosition measuredLayout rect = h_left
       <-> distanceToRightEdge measuredLayout rect < distanceToLeftEdge rect)
      /\ (horizontalPosition measuredLayout rect = h_left <-> W / 2 < cx)
      /\ (distanceToRightEdge measuredLayout rect == distanceToLeftEdge rect ->
          horizontalPosition measuredLayout rect = h_right)).
Proof.
  intros cx W.
  assert (Hright : horizontalPosition measuredLayout rect = h_right
                   <-> ~ horizontalPosition measuredLayout rect = h_left).
  { destruct (horizontalPosition measuredLayout rect); split; congruence. }
  rewrite Hright, horizontalPosition_left.
  unfold distanceToLeftEdge, distanceToRightEdge, relativeToLeft, relativeToRight, center.
  cbn [ValueXY.x]. fold cx. fold W.
  split; [tauto |]. split; [split; [intros H; lra | intros H H'; lra] |].
  intros HW. split; [| split].
  - split; intros H; revert H;
      apply (Qabs_case (cx - 0)); apply (Qabs_case (cx - W)); intros; lra.
  - split; intros H; revert H; apply (Qabs_case (cx - W)); intros; qlra.
  - intros H H'. revert H H'.
    apply (Qabs_case (cx - 0)); apply (Qabs_case (cx - W)); intros; lra.
Qed.

(** X2. In a viewport of positive height the tooltip goes below the target
    exactly when the viewport leaves more room below the target than above
    it; in one of positive width it is pinned by its right edge exactly when
    there is more room to the left of the target than to its right. *)
Theorem tooltip_side_has_more_room (measuredLayout rect : LayoutRect.t) :
  (0 < LayoutRect.height measuredLayout ->
   (verticalPosition measuredLayout rect = v_bottom
    <-> roomAbove rect < roomBelow measuredLayout rect))
  /\ (0 < LayoutRect.width measuredLayout ->
      (horizontalPosition measuredLayout rect = h_left
       <-> roomRight measuredLayout rect < roomLeft rect)).
Proof.
  unfold roomAbove, roomBelow, roomLeft, roomRight. split; intros Hpos.
  - rewrite verticalPosition_bottom. unfold relativeToTop, relativeToBottom, center.
    cbn [ValueXY.y].
    split; intros H; revert H;
      apply (Qabs_case (LayoutRect.y rect + LayoutRect.height rect / 2
                        - LayoutRect.height measuredLayout)); intros; qlra.
  - rewrite horizontalPosition_left. unfold relativeToLeft, relativeToRight, center.
    cbn [ValueXY.x].
    split; intros H; revert H;
      apply (Qabs_case (LayoutRect.x rect + LayoutRect.width rect / 2
                        - LayoutRect.width measuredLayout)); intros; qlra.
Qed.

(** ** Mask shapes *)

(** X3. The circle of the mask is centred on the target and has the smaller
    side of the target for diameter: it stays inside the box of the target
    on both axes and touches it on one of them. *)
Theorem circle_mask_inscribed (borderRadius posX posY sizeX sizeY : number) :
  exists cx cy r : number,
    innerPath borderRadius circle posX posY sizeX sizeY
    = [ MoveTo (cx - r) cy;
        Arc r r 0 true false (cx + r) cy;
        Arc r r 0 true false (cx - r) cy;
        ClosePath ]
    /\ cx == posX + sizeX / 2 /\ cy == posY + sizeY / 2
    /\ 2 * r == Qmin sizeX sizeY
    /\ posX <= cx - r /\ cx + r <= posX + sizeX
    /\ posY <= cy - r /\ cy + r <= posY + sizeY
    /\ (cx - r == posX /\ cx + r == posX + sizeX
        \/ cy - r == posY /\ cy + r == posY + sizeY).
Proof.
  exists (posX + sizeX / 2), (posY + sizeY / 2), (Qmin sizeX sizeY / 2).
  split; [reflexivity |]. split; [reflexivity |]. split; [reflexivity |].
  pose proof (Q.le_min_l sizeX sizeY) as Hl. pose proof (Q.le_min_r sizeX sizeY) as Hr.
  split; [halves; field |].
  split; [qlra |]. split; [qlra |]. split; [qlra |]. split; [qlra |].
  destruct (Q.min_dec sizeX sizeY) as [E | E]; [left | right]; rewrite E;
    split; halves; ring.
Qed.

(** X4. With a radius and a target size that are not negative, the corner
    radius of the rounded rectangle is not negative and the corners of one
    side do not run into each other: each straight side of the path has a
    length that is not negative. *)
Theorem rounded_rectangle_corners_apart (borderRadius posX posY sizeX sizeY : number) :
  0 <= borderRadius -> 0 <= sizeX -> 0 <= sizeY ->
  exists r : number,
    innerPath borderRadius rounded_rectangle posX posY sizeX sizeY
    = [ MoveTo (posX + r) posY;
        HLineTo (posX + sizeX - r);
        Arc r r 0 false true (posX + sizeX) (posY + r);
        VLineTo (posY + sizeY - r);
        Arc r r 0 false true (posX + sizeX - r) (posY + sizeY);
        HLineTo (posX + r);
        Arc r r 0 false true posX (posY + sizeY - r);
        VLineTo (posY + r);
        Arc r r 0 false true (posX + r) posY;
        ClosePath ]
    /\ 0 <= r
    /\ posX + r <= posX + sizeX - r
    /\ posY + r <= posY + sizeY - r.
Proof.
  intros Hb Hx Hy.
  exists (Math_min3 borderRadius (sizeX / 2) (sizeY / 2)).
  split; [reflexivity |].
  destruct (Math_min3_le borderRadius (sizeX / 2) (sizeY / 2)) as (_ & Hsx & Hsy).
  destruct (Math_min3_attained borderRadius (sizeX / 2) (sizeY / 2)) as [E | [E | E]];
    repeat split; try qlra; rewrite E; qlra.
Qed.

Lemma rounded_rectangle_corners_apart_witness :
  exists r : number,
    innerPath 8 rounded_rectangle 18 18 64 10
    = [ MoveTo (18 + r) 18;
        HLineTo (18 + 64 - r);
        Arc r r 0 false true (18 + 64) (18 + r);
        VLineTo (18 + 10 - r);
        Arc r r 0 false true (18 + 64 - r) (18 + 10);
        HLineTo (18 + r);
        Arc r r 0 false true 18 (18 + 10 - r);
        VLineTo (18 + r);
        Arc r r 0 false true (18 + r) 18;
        ClosePath ]
    /\ 0 <= r
    /\ 18 + r <= 18 + 64 - r
    /\ 18 + r <= 18 + 10 - r.
Proof.
  apply (rounded_rectangle_corners_apart 8 18 18 64 10); discriminate.
Defined.

(** X5. The step-number badge stays where the target starts, 14 to its
    left, when that is not negative; otherwise it moves to the right edge of
    the target, and no further right than 28 short of the width of the
    viewport. So its left edge is not negative once the target reaches 14
    from the left and the viewport is 28 wide. *)
Theorem stepNumberLeft_position (measuredLayout rect : LayoutRect.t) :
  let x := LayoutRect.x rect in
  let W := LayoutRect.width measuredLayout in
  (0 <= x - 14 -> stepNumberLeft measuredLayout rect = x - STEP_NUMBER_RADIUS)
  /\ (x - 14 < 0 ->
      stepNumberLeft measuredLayout rect <= W - 28
      /\ stepNumberLeft measuredLayout rect <= x + LayoutRect.width rect - 14
      /\ (stepNumberLeft measuredLayout rect == W - 28
          \/ stepNumberLeft measuredLayout rect == x + LayoutRect.width rect - 14))
  /\ (14 <= x + LayoutRect.width rect -> 28 <= W ->
      0 <= stepNumberLeft measuredLayout rect).
Proof.
  intros x W. unfold stepNumberLeft, STEP_NUMBER_DIAMETER, STEP_NUMBER_RADIUS.
  fold x. fold W.
  destruct (ltb (x - 14) 0) eqn:Eflip;
    [apply ltb_true in Eflip | apply ltb_false in Eflip].
  - destruct (gtb (x + LayoutRect.width rect - 14) (W - 14 * 2)) eqn:Eclamp;
      [apply gtb_true in Eclamp | apply gtb_false in Eclamp].
    + split; [intros H; lra |]. split.
      * intros _. split; [lra |]. split; [lra |]. left. ring.
      * intros H1 H2. lra.
    + split; [intros H; lra |]. split.
      * intros _. split; [lra |]. split; [lra |]. right. reflexivity.
      * intros H1 H2. lra.
  - split; [reflexivity |]. split; [intros H; lra | intros _ _; lra].
Qed.

Local Close Scope Q_scope.

(** ** The step registry, further *)

Section JSObject_more.
Context {V : Type}.
Implicit Types (o : JSObject.t V) (k : string) (v : V).

Lemma get_None_keys k o : JSObject.get k o = None <-> k ∉ map fst o.
Proof.
  induction o as [| [k' v'] o IH]; cbn.
  - split; [intros _; apply not_elem_of_nil | reflexivity].
  - rewrite not_elem_of_cons. destruct (String.eqb_spec k k') as [-> | Hne].
    + split; [discriminate | intros [H _]; congruence].
    + rewrite IH. tauto.
Qed.

Lemma get_Some_In k v o : JSObject.get k o = Some v -> (k, v) ∈ o.
Proof.
  induction o as [| [k' v'] o IH]; cbn; [discriminate |].
  destruct (String.eqb_spec k k') as [-> | Hne].
  - intros [= ->]. apply list_elem_of_here.
  - intros H. apply list_elem_of_further. auto.
Qed.

Lemma keys_replace k v o : map fst (JSObject.replace k v o) = map fst o.
Proof.
  induction o as [| [k' v'] o IH]; cbn; [reflexivity |].
  destruct (String.eqb_spec k k') as [-> | Hne]; cbn; [reflexivity | now rewrite IH].
Qed.

Lemma insert_index_Permutation n k v o : JSObject.insert_index n k v o ≡ₚ (k, v) :: o.
Proof.
  induction o as [| [k' v'] o IH]; cbn; [reflexivity |].
  destruct (JSObject.array_index k') as [n' |]; [destruct (n <? n')%N |];
    try reflexivity.
  rewrite IH. apply Permutation_swap.
Qed.

(** The entries after writing a key that was absent. *)
Lemma set_fresh_Permutation k v o :
  JSObject.get k o = None -> JSObject.set k v o ≡ₚ (k, v) :: o.
Proof.
  intros H. unfold JSObject.set. rewrite H.
  destruct (JSObject.array_index k).
  - apply insert_index_Permutation.
  - symmetry. apply Permutation_cons_append.
Qed.

Lemma replace_In k v o e :
  e ∈ JSObject.replace k v o -> e = (k, v) \/ e ∈ o.
Proof.
  induction o as [| [k' v'] o IH]; cbn; [auto |].
  destruct (String.eqb k k').
  - rewrite !elem_of_cons. tauto.
  - rewrite !elem_of_cons. intros [-> | H]; [auto | destruct (IH H); auto].
Qed.

Lemma set_In k v o e : e ∈ JSObject.set k v o -> e = (k, v) \/ e ∈ o.
Proof.
  unfold JSObject.set. destruct (JSObject.get k o) eqn:E.
  - apply replace_In.
  - fold (JSObject.set k v o). intros H.
    assert (Hs : JSObject.set k v o = match JSObject.array_index k with
                                      | Some n => JSObject.insert_index n k v o
                                      | None => o ++ [(k, v)]
                                      end) by (unfold JSObject.set; now rewrite E).
    rewrite <- Hs, (set_fresh_Permutation k v o E), elem_of_cons in H. exact H.
Qed.

Lemma set_NoDup k v o : NoDup (map fst o) -> NoDup (map fst (JSObject.set k v o)).
Proof.
  intros H. destruct (JSObject.get k o) eqn:E.
  - unfold JSObject.set. rewrite E, keys_replace. exact H.
  - rewrite (set_fresh_Permutation k v o E). cbn. constructor; [| exact H].
    now apply get_None_keys.
Qed.

Lemma get_replace_ne k k' v o :
  k <> k' -> JSObject.get k' (JSObject.replace k v o) = JSObject.get k' o.
Proof.
  intros Hne. induction o as [| [k0 v0] o IH]; cbn; [reflexivity |].
  destruct (String.eqb_spec k k0) as [-> | Hk]; cbn.
  - destruct (String.eqb_spec k' k0); [congruence | reflexivity].
  - now rewrite IH.
Qed.

Lemma get_insert_index_ne n k k' v o :
  k <> k' -> JSObject.get k' (JSObject.insert_index n k v o) = JSObject.get k' o.
Proof.
  intros Hne. induction o as [| [k0 v0] o IH]; cbn.
  - destruct (String.eqb_spec k' k); [congruence | reflexivity].
  - destruct (JSObject.array_index k0) as [n' |]; [destruct (n <? n')%N |]; cbn;
      try (destruct (String.eqb_spec k' k); [congruence | reflexivity]).
    now rewrite IH.
Qed.

Lemma get_app_ne k k' v o :
  k <> k' -> JSObject.get k' (o ++ [(k, v)]) = JSObject.get k' o.
Proof.
  intros Hne. induction o as [| [k0 v0] o IH]; cbn.
  - destruct (String.eqb_spec k' k); [congruence | reflexivity].
  - now rewrite IH.
Qed.

(** Writing a key leaves the others as they were. *)
Lemma get_set_ne k k' v o :
  k <> k' -> JSObject.get k' (JSObject.set k v o) = JSObject.get k' o.
Proof.
  intros Hne. unfold JSObject.set. destruct (JSObject.get k o).
  - now apply get_replace_ne.
  - destruct (JSObject.array_index k);
      [now apply get_insert_index_ne | now apply get_app_ne].
Qed.

Lemma get_delete_eq k o : JSObject.get k (JSObject.delete k o) = None.
Proof.
  induction o as [| [k' v'] o IH]; cbn; [reflexivity |].
  destruct (String.eqb k k') eqn:E; cbn; [exact IH | now rewrite E].
Qed.

Lemma get_delete_ne k k' o :
  k <> k' -> JSObject.get k' (JSObject.delete k o) = JSObject.get k' o.
Proof.
  intros Hne. unfold JSObject.delete.
  induction o as [| [k0 v0] o IH]; cbn; [reflexivity |].
  destruct (String.eqb_spec k k0) as [-> | Hk]; cbn.
  - destruct (String.eqb_spec k' k0); [congruence | exact IH].
  - now rewrite IH.
Qed.

Lemma delete_absent k o : JSObject.get k o = None -> JSObject.delete k o = o.
Proof.
  unfold JSObject.delete. induction o as [| [k' v'] o IH]; cbn; [reflexivity |].
  destruct (String.eqb k k'); cbn; [discriminate | intros H; f_equal; auto].
Qed.

Lemma delete_insert_index n k v o :
  JSObject.get k o = None -> JSObject.delete k (JSObject.insert_index n k v o) = o.
Proof.
  induction o as [| [k' v'] o IH]; cbn; intros H.
  - now rewrite String.eqb_refl.
  - destruct (String.eqb k k') eqn:E; [discriminate |].
    pose proof (delete_absent k o H) as Habs. unfold JSObject.delete in *.
    destruct (JSObject.array_index k') as [n' |]; [destruct (n <? n')%N |]; cbn;
      rewrite ?String.eqb_refl, ?E; cbn; f_equal; auto.
Qed.

(** Deleting a key that was written fresh gives the object back. *)
Lemma delete_set_fresh k v o :
  JSObject.get k o = None -> JSObject.delete k (JSObject.set k v o) = o.
Proof.
  intros H. unfold JSObject.set. rewrite H. destruct (JSObject.array_index k).
  - now apply delete_insert_index.
  - unfold JSObject.delete. rewrite List.filter_app. cbn. rewrite String.eqb_refl. cbn.
    rewrite app_nil_r. now apply delete_absent.
Qed.

Lemma delete_In k o e : e ∈ JSObject.delete k o -> e ∈ o.
Proof.
  unfold JSObject.delete. rewrite !list_elem_of_In, filter_In. tauto.
Qed.

Lemma delete_NoDup k o : NoDup (map fst o) -> NoDup (map fst (JSObject.delete k o)).
Proof.
  induction o as [| [k' v'] o IH]; [auto |].
  change (JSObject.delete k ((k', v') :: o))
    with (if negb (String.eqb k k') then (k', v') :: JSObject.delete k o
          else JSObject.delete k o).
  cbn [map fst]. rewrite NoDup_cons. intros [Hk H].
  destruct (String.eqb k k'); cbn [negb map fst]; [auto |].
  apply NoDup_cons. split; [| auto].
  intros Hin. apply Hk. apply list_elem_of_fmap in Hin as ([k0 v0] & -> & Hin).
  apply list_elem_of_fmap. exists (k0, v0). split; [reflexivity |].
  eapply delete_In. exact Hin.
Qed.

End JSObject_more.

Lemma In_get {V : Type} (k : string) (v : V) (o : JSObject.t V) :
  NoDup (map fst o) -> (k, v) ∈ o -> JSObject.get k o = Some v.
Proof.
  induction o as [| [k' v'] o IH]; cbn; intros Hnd Hin.
  - apply elem_of_nil in Hin. destruct Hin.
  - apply NoDup_cons in Hnd as [Hk Hnd]. apply elem_of_cons in Hin as [[= -> ->] | Hin].
    + now rewrite String.eqb_refl.
    + destruct (String.eqb_spec k k') as [-> | Hne]; [| auto].
      exfalso. apply Hk. apply list_elem_of_fmap. exists (k', v). auto.
Qed.

Lemma registryOk_empty : registryOk ∅.
Proof. intros k o H. rewrite lookup_empty in H. discriminate. Qed.

Lemma stepsReducer_ok (state : StepsState) (action : StepsAction) :
  registryOk state -> registryOk (stepsReducer state action).
Proof.
  intros Hok k o. destruct action as [step | stepName tourKey]; cbn.
  - destruct (decide (Step.tourKey step = k)) as [<- | Hne].
    + rewrite lookup_insert_eq. intros [= <-].
      assert (Hold : NoDup (map fst (default JSObject.empty (state !! Step.tourKey step)))
                     /\ Forall (fun entry => Step.name (snd entry) = fst entry
                                 /\ Step.tourKey (snd entry) = Step.tourKey step)
                          (default JSObject.empty (state !! Step.tourKey step))).
      { destruct (state !! Step.tourKey step) as [o |] eqn:E.
        - exact (Hok _ _ E).
        - split; constructor. }
      destruct Hold as [Hnd Hall]. split; [now apply set_NoDup |].
      apply Forall_forall. intros e He. apply set_In in He as [-> | He].
      * split; reflexivity.
      * rewrite Forall_forall in Hall. auto.
    + rewrite lookup_insert_ne by exact Hne. apply Hok.
  - destruct (state !! tourKey) as [tourSteps |] eqn:E; [| apply Hok].
    destruct (decide (tourKey = k)) as [<- | Hne].
    + rewrite lookup_insert_eq. intros [= <-].
      destruct (Hok _ _ E) as [Hnd Hall]. split; [now apply delete_NoDup |].
      apply Forall_forall. intros e He. apply delete_In in He.
      rewrite Forall_forall in Hall. auto.
    + rewrite lookup_insert_ne by exact Hne. apply Hok.
Qed.

Lemma dispatched_ok (actions : list StepsAction) : registryOk (dispatched actions).
Proof.
  unfold dispatched. generalize registryOk_empty. generalize (∅ : StepsState).
  induction actions as [| a actions IH]; intros state Hok; cbn; [exact Hok |].
  apply IH, stepsReducer_ok, Hok.
Qed.

(** X6. Whatever was registered and unregistered, the ordered steps of a
    tour are visible steps of that very tour, hold a step name once, and
    each is the step that the registry files under its name. *)
Theorem orderedTourSteps_of_dispatched (actions : list StepsAction) (tourKey : string) :
  let state := dispatched actions in
  Forall (fun s => Step.tourKey s = tourKey /\ Step.visible s = true)
    (orderedTourSteps state tourKey)
  /\ NoDup (map Step.name (orderedTourSteps state tourKey))
  /\ (forall s, In s (orderedTourSteps state tourKey) ->
                JSObject.get (Step.name s) (tourStepsOf state tourKey) = Some s).
Proof.
  intros state.
  assert (Hok : NoDup (map fst (tourStepsOf state tourKey))
                /\ Forall (fun entry => Step.name (snd entry) = fst entry
                            /\ Step.tourKey (snd entry) = tourKey)
                     (tourStepsOf state tourKey)).
  { unfold tourStepsOf. destruct (state !! tourKey) as [o |] eqn:E.
    - exact (dispatched_ok actions _ _ E).
    - split; constructor. }
  destruct Hok as [Hnd Hall]. rewrite Forall_forall in Hall.
  assert (Hperm : orderedTourSteps state tourKey
                  ≡ₚ List.filter Step.visible (JSObject.values (tourStepsOf state tourKey)))
    by apply sortByOrder_Permutation.
  assert (Hin : forall s, In s (orderedTourSteps state tourKey) ->
                          (Step.name s, s) ∈ tourStepsOf state tourKey
                          /\ Step.visible s = true).
  { intros s Hs. apply (Permutation_in _ Hperm), filter_In in Hs as [Hs Hv].
    split; [| exact Hv]. unfold JSObject.values in Hs. apply in_map_iff in Hs.
    destruct Hs as ([k s'] & <- & He). apply list_elem_of_In in He.
    destruct (Hall _ He) as [Hname _]. cbn in *. now rewrite Hname. }
  split; [| split].
  - apply Forall_forall. intros s Hs. apply list_elem_of_In in Hs.
    destruct (Hin s Hs) as [He Hv]. destruct (Hall _ He) as [_ Hk]. auto.
  - rewrite Hperm.
    assert (Hnames : map Step.name (JSObject.values (tourStepsOf state tourKey))
                     = map fst (tourStepsOf state tourKey)).
    { unfold JSObject.values. rewrite map_map. apply map_ext_in. intros e He.
      apply list_elem_of_In in He. now destruct (Hall _ He). }
    rewrite <- Hnames in Hnd. clear -Hnd.
    induction (JSObject.values (tourStepsOf state tourKey)) as [| s l IH]; cbn;
      [constructor |].
    cbn in Hnd. apply NoDup_cons in Hnd as [Hs Hnd].
    destruct (Step.visible s); cbn; [| auto].
    apply NoDup_cons. split; [| auto].
    intros H. apply Hs. apply list_elem_of_fmap in H as (s' & -> & H).
    apply list_elem_of_fmap. exists s'. split; [reflexivity |].
    apply list_elem_of_In. apply list_elem_of_In, filter_In in H. tauto.
  - intros s Hs. destruct (Hin s Hs) as [He _]. now apply In_get.
Qed.

(** What the reducer files after [register], [unregister], and one after
    the other. *)
Lemma get_registered (state : StepsState) (step : Step.t) :
  let after := stepsReducer state (register step) in
  JSObject.get (Step.name step) (tourStepsOf after (Step.tourKey step)) = Some step
  /\ (forall name, name <> Step.name step ->
        JSObject.get name (tourStepsOf after (Step.tourKey step))
        = JSObject.get name (tourStepsOf state (Step.tourKey step)))
  /\ (forall tourKey, tourKey <> Step.tourKey step -> after !! tourKey = state !! tourKey).
Proof.
  intros after. subst after. unfold tourStepsOf. cbn [stepsReducer].
  rewrite lookup_insert_eq. cbn [default from_option id].
  split; [apply get_set_eq |]. split.
  - intros name Hne. apply get_set_ne. congruence.
  - intros tourKey Hne. apply lookup_insert_ne. congruence.
Qed.

Lemma get_unregistered (state : StepsState) (stepName tourKey : string) :
  let after := stepsReducer state (unregister stepName tourKey) in
  JSObject.get stepName (tourStepsOf after tourKey) = None
  /\ (forall name, name <> stepName ->
        JSObject.get name (tourStepsOf after tourKey)
        = JSObject.get name (tourStepsOf state tourKey))
  /\ (forall k, k <> tourKey -> after !! k = state !! k).
Proof.
  intros after. subst after. unfold tourStepsOf. cbn [stepsReducer].
  destruct (state !! tourKey) as [tourSteps |] eqn:E.
  - rewrite lookup_insert_eq. cbn [default from_option id].
    split; [apply get_delete_eq |]. split.
    + intros name Hne. apply get_delete_ne. congruence.
    + intros k Hne. apply lookup_insert_ne. congruence.
  - rewrite E. cbn. repeat split; reflexivity.
Qed.

Lemma tourStepsOf_register_unregister (state : StepsState) (step : Step.t) :
  JSObject.get (Step.name step) (tourStepsOf state (Step.tourKey step)) = None ->
  forall tourKey,
    tourStepsOf (stepsReducer (stepsReducer state (register step))
                   (unregister (Step.name step) (Step.tourKey step))) tourKey
    = tourStepsOf state tourKey.
Proof.
  intros Hfresh tourKey. unfold tourStepsOf in *. cbn [stepsReducer].
  rewrite lookup_insert_eq.
  destruct (decide (Step.tourKey step = tourKey)) as [<- | Hne].
  - rewrite lookup_insert_eq. cbn [default from_option id].
    now apply delete_set_fresh.
  - rewrite !lookup_insert_ne by exact Hne. reflexivity.
Qed.

(** X7. After a step is registered, the registry files it under its tour and
    name, whatever was filed there before; the other names of the tour and
    the other tours are as they were; and [start] from that name finds it. *)
Theorem register_then_lookup (state : StepsState) (step : Step.t) :
  let after := stepsReducer state (register step) in
  JSObject.get (Step.name step) (tourStepsOf after (Step.tourKey step)) = Some step
  /\ (forall name, name <> Step.name step ->
        JSObject.get name (tourStepsOf after (Step.tourKey step))
        = JSObject.get name (tourStepsOf state (Step.tourKey step)))
  /\ (forall tourKey, tourKey <> Step.tourKey step -> after !! tourKey = state !! tourKey)
  /\ (Step.name step <> "" ->
      firstStepOf after (Step.tourKey step) (Some (Step.name step)) = Some step).
Proof.
  intros after.
  destruct (get_registered state step) as (Hget & Hother & Htours). fold after in Hget, Hother, Htours.
  split; [exact Hget |]. split; [exact Hother |]. split; [exact Htours |].
  intros Hname. unfold firstStepOf. cbn [truthy].
  destruct (Step.name step) eqn:E; [congruence |]. cbn. exact Hget.
Qed.

(** X8. After a name is unregistered from a tour, the registry files nothing
    under it; the other names of the tour and the other tours are as they
    were; and when nothing was filed under the name the registry is
    unchanged. *)
Theorem unregister_removes (state : StepsState) (stepName tourKey : string) :
  let after := stepsReducer state (unregister stepName tourKey) in
  JSObject.get stepName (tourStepsOf after tourKey) = None
  /\ (forall name, name <> stepName ->
        JSObject.get name (tourStepsOf after tourKey)
        = JSObject.get name (tourStepsOf state tourKey))
  /\ (forall k, k <> tourKey -> after !! k = state !! k)
  /\ (JSObject.get stepName (tourStepsOf state tourKey) = None -> after = state).
Proof.
  intros after.
  destruct (get_unregistered state stepName tourKey) as (Hgone & Hother & Htours).
  fold after in Hgone, Hother, Htours.
  split; [exact Hgone |]. split; [exact Hother |]. split; [exact Htours |].
  intros Habsent. subst after. unfold tourStepsOf in Habsent. cbn [stepsReducer].
  destruct (state !! tourKey) as [tourSteps |] eqn:E; [| reflexivity].
  cbn [default from_option id] in Habsent.
  rewrite delete_absent by exact Habsent. now apply insert_id.
Qed.

(** X9. Registering a step under a name that the tour does not hold and then
    unregistering that name gives every tour the steps it had. *)
Theorem register_unregister_fresh (state : StepsState) (step : Step.t) :
  JSObject.get (Step.name step) (tourStepsOf state (Step.tourKey step)) = None ->
  forall tourKey,
    tourStepsOf (stepsReducer (stepsReducer state (register step))
                   (unregister (Step.name step) (Step.tourKey step))) tourKey
    = tourStepsOf state tourKey.
Proof. apply tourStepsOf_register_unregister. Qed.

Lemma register_unregister_fresh_witness :
  tourStepsOf (stepsReducer (stepsReducer (Engine.steps engine_registered)
                               (register (Step.mk "e" 3%Q "" "u" true None None None None)))
                 (unregister "e" "u")) "u"
  = tourStepsOf (Engine.steps engine_registered) "u".
Proof.
  apply (register_unregister_fresh (Engine.steps engine_registered)
           (Step.mk "e" 3%Q "" "u" true None None None None)).
  reflexivity.
Defined.

(** ** The engine, further *)

(** What [stop] leaves, by the visibility it finds. *)
Lemma stop_visible (e : Engine.t) :
  Engine.visible e = true ->
  stop e
  = let cleared := Engine.setScrollViewRef None
                     (Engine.setCurrentStepState None
                        (Engine.setActiveTour None (Engine.setVisible false e))) in
    if truthy (Engine.activeTour e)
    then Engine.emit (ev_stop (default "" (Engine.activeTour e)) (isLastStep e)) cleared
    else cleared.
Proof. intros H. unfold stop, setVisibility. rewrite H. reflexivity. Qed.

Lemma stop_invisible (e : Engine.t) :
  Engine.visible e = false -> stop e = Engine.setVisible false e.
Proof. intros H. unfold stop, setVisibility. rewrite H. reflexivity. Qed.

Lemma stepIndex_bounds (e : Engine.t) :
  (-1 <= stepIndex e < Z.of_nat (length (orderedSteps e)))%Z.
Proof.
  unfold stepIndex. destruct (Engine.currentStep e) as [c |]; [| lia].
  unfold findIndex.
  assert (H : forall (l : list Step.t) z,
             (0 <= z)%Z ->
             let r := findIndexFrom z
                        (fun s => Qeq_bool (Step.order s) (Step.order c)) l in
             (r = -1 \/ z <= r < z + Z.of_nat (length l))%Z).
  { induction l as [| s l IH]; intros z Hz; cbn; [lia |].
    destruct (Qeq_bool (Step.order s) (Step.order c)); [lia |].
    specialize (IH (z + 1)%Z ltac:(lia)). cbn in IH. lia. }
  specialize (H (orderedSteps e) 0%Z ltac:(lia)). cbn in H. lia.
Qed.

(** X10. [goToPrev] on the first step, and with no current step, changes
    nothing: no event, no move. *)
Theorem goToPrev_on_first_step (cfg : Config.t) (e : Engine.t) :
  (stepIndex e <= 0)%Z -> goToPrev cfg e = e.
Proof.
  intros H. unfold goToPrev, at_index.
  destruct (Z.ltb_spec (stepIndex e - 1) 0); [reflexivity | lia].
Qed.

Lemma goToPrev_on_first_step_witness : goToPrev config_default engine_on_a = engine_on_a.
Proof.
  apply (goToPrev_on_first_step config_default engine_on_a).
  vm_compute. discriminate.
Defined.

(** X11. [goToNth(n)] does nothing when [n] is below 1 or above the number
    of ordered steps. Otherwise it emits one [stepChange] that carries the
    [n]-th ordered step and the number [n], and makes that step current;
    the step number reported afterwards is [n] when no step before the
    [n]-th has its order. *)
Theorem goToNth_moves_to_nth (cfg : Config.t) (n : Z) (e : Engine.t) :
  ((n < 1 \/ totalStepsNumber e < n)%Z -> goToNth cfg n e = e)
  /\ ((1 <= n <= totalStepsNumber e)%Z ->
      exists step : Step.t,
        orderedSteps e !! Z.to_nat (n - 1) = Some step
        /\ Engine.currentStep (goToNth cfg n e) = Some step
        /\ Engine.emitted (goToNth cfg n e)
           = Engine.emitted e ++ [ev_stepChange (Engine.activeTour e) step n]
        /\ Engine.activeTour (goToNth cfg n e) = Engine.activeTour e
        /\ Engine.visible (goToNth cfg n e) = Engine.visible e
        /\ ((forall k s, k < Z.to_nat (n - 1) -> orderedSteps e !! k = Some s ->
                         ~ (Step.order s == Step.order step)%Q) ->
            currentStepNumber (goToNth cfg n e) = n)).
Proof.
  unfold totalStepsNumber. split.
  - intros H. unfold goToNth, at_index.
    destruct (Z.ltb_spec (n - 1) 0); [reflexivity |].
    rewrite lookup_ge_None_2 by lia. reflexivity.
  - intros H.
    destruct (lookup_lt_is_Some_2 (orderedSteps e) (Z.to_nat (n - 1))) as [step Hstep];
      [lia |].
    exists step. split; [exact Hstep |].
    assert (Hgo : goToNth cfg n e
                  = setCurrentStep cfg (Some step) true
                      (Engine.emit (ev_stepChange (Engine.activeTour e) step n) e)).
    { unfold goToNth, at_index. destruct (Z.ltb_spec (n - 1) 0); [lia |].
      now rewrite Hstep. }
    rewrite Hgo.
    destruct (setCurrentStep_frame cfg (Some step) true
                (Engine.emit (ev_stepChange (Engine.activeTour e) step n) e))
      as (Fs & Fa & Fc & Fv & _ & _ & Fe & _). cbv zeta in *.
    split; [exact Fc |]. split; [exact Fe |]. split; [exact Fa |]. split; [exact Fv |].
    intros Hfirst. unfold currentStepNumber.
    rewrite (stepIndex_first _ step step (Z.to_nat (n - 1))); [lia | exact Fc | |
      reflexivity |].
    + unfold orderedSteps. rewrite Fs, Fa. exact Hstep.
    + intros k s Hk Hs. apply (Hfirst k s Hk).
      unfold orderedSteps in *. now rewrite Fs, Fa in Hs.
Qed.

Lemma orderedSteps_same (e e' : Engine.t) :
  Engine.steps e' = Engine.steps e ->
  Engine.activeTour e' = Engine.activeTour e ->
  orderedSteps e' = orderedSteps e.
Proof. intros Hs Ha. unfold orderedSteps. now rewrite Hs, Ha. Qed.

Lemma stepIndex_distinct (e : Engine.t) (c : Step.t) (i : nat) :
  distinctOrders (orderedSteps e) ->
  Engine.currentStep e = Some c ->
  orderedSteps e !! i = Some c ->
  stepIndex e = Z.of_nat i.
Proof.
  intros Hd Hc Hi. apply (stepIndex_first e c c i); [exact Hc | exact Hi | reflexivity |].
  intros k s Hk Hs Ho. specialize (Hd k i s c Hs Hi Ho). lia.
Qed.

(** X12. Among steps of distinct orders, [goToNext] from a step that has a
    successor makes the successor current, raises the step number by one
    and emits one [stepChange] with the new step number; [goToPrev] then
    leads back to the step left. *)
Theorem goToNext_then_goToPrev (cfg : Config.t) (e : Engine.t) (i : nat)
    (c next : Step.t) :
  distinctOrders (orderedSteps e) ->
  Engine.currentStep e = Some c ->
  orderedSteps e !! i = Some c ->
  orderedSteps e !! S i = Some next ->
  let e' := goToNext cfg e in
  Engine.currentStep e' = Some next
  /\ currentStepNumber e' = (currentStepNumber e + 1)%Z
  /\ Engine.emitted e'
     = Engine.emitted e
       ++ [ev_stepChange (Engine.activeTour e) next (currentStepNumber e')]
  /\ Engine.currentStep (goToPrev cfg e') = Some c
  /\ currentStepNumber (goToPrev cfg e') = currentStepNumber e.
Proof.
  intros Hd Hc Hi Hnext e'.
  pose proof (stepIndex_distinct e c i Hd Hc Hi) as Hidx.
  assert (He' : e' = setCurrentStep cfg (Some next) true
                       (Engine.emit
                          (ev_stepChange (Engine.activeTour e) next (Z.of_nat i + 2)) e)).
  { subst e'. unfold goToNext. rewrite Hidx.
    replace (Z.of_nat i + 1)%Z with (Z.of_nat (S i)) by lia.
    now rewrite at_index_nat, Hnext. }
  destruct (setCurrentStep_frame cfg (Some next) true
              (Engine.emit (ev_stepChange (Engine.activeTour e) next (Z.of_nat i + 2)) e))
    as (Fs & Fa & Fc & _ & _ & _ & Fe & _). cbv zeta in *. rewrite <- He' in *.
  engine_fields.
  pose proof (orderedSteps_same e e' Fs Fa) as Hl.
  assert (Hidx' : stepIndex e' = Z.of_nat (S i)).
  { apply (stepIndex_distinct e' next); rewrite ?Hl; assumption. }
  assert (Hback : goToPrev cfg e'
                  = setCurrentStep cfg (Some c) true
                      (Engine.emit
                         (ev_stepChange (Engine.activeTour e') c (Z.of_nat (S i))) e')).
  { unfold goToPrev. rewrite Hidx'.
    replace (Z.of_nat (S i) - 1)%Z with (Z.of_nat i) by lia.
    now rewrite at_index_nat, Hl, Hi. }
  destruct (setCurrentStep_frame cfg (Some c) true
              (Engine.emit (ev_stepChange (Engine.activeTour e') c (Z.of_nat (S i))) e'))
    as (Gs & Ga & Gc & _). cbv zeta in *. rewrite <- Hback in *. engine_fields.
  unfold currentStepNumber. rewrite Hidx', Hidx.
  split; [exact Fc |]. split; [lia |].
  split; [rewrite Fe; do 3 f_equal; lia |]. split; [exact Gc |].
  rewrite (stepIndex_distinct (goToPrev cfg e') c i); [reflexivity | | exact Gc |].
  - now rewrite (orderedSteps_same e' _ Gs Ga), Hl.
  - now rewrite (orderedSteps_same e' _ Gs Ga), Hl.
Qed.

Lemma goToNext_then_goToPrev_witness :
  Engine.currentStep (goToNext config_default engine_on_u) = Some step_d
  /\ Engine.currentStep (goToPrev config_default (goToNext config_default engine_on_u))
     = Some step_c.
Proof.
  destruct (goToNext_then_goToPrev config_default engine_on_u 0 step_c step_d)
    as (H1 & _ & _ & H4 & _).
  - intros i j a b Hi Hj. change (orderedSteps engine_on_u) with [step_c; step_d] in Hi, Hj.
    destruct i as [| [| i]], j as [| [| j]]; cbn in Hi, Hj; try discriminate;
      injection Hi as <-; injection Hj as <-; intros H; try reflexivity;
      vm_compute in H; discriminate.
  - reflexivity.
  - reflexivity.
  - reflexivity.
  - split; assumption.
Defined.

Lemma start_starts_more (cfg : Config.t) (tourKey : string) (fromStep : option string)
    (scrollView : option ScrollView) (e : Engine.t) (firstStep : Step.t) :
  Engine.startTries e <= MAX_START_TRIES ->
  firstStepOf (Engine.steps e) tourKey fromStep = Some firstStep ->
  let r := start cfg tourKey fromStep scrollView e in
  Engine.startTries (fst r) = (if Engine.visible e then Engine.startTries e else 0)
  /\ Engine.scrollViewRef (fst r)
     = match scrollView with Some sv => Some sv | None => Engine.scrollViewRef e end.
Proof.
  intros H Hfirst. unfold start. cbv zeta.
  destruct (withScrollView_frame scrollView e)
    as (Es & Ea & Ec & Ev & Et & Ep & Ee & Ew). cbv zeta in *.
  apply Nat.ltb_ge in H. rewrite Es, Et, H, Hfirst.
  set (e1 := Engine.emit (ev_start tourKey)
               (Engine.setActiveTour (Some tourKey) (withScrollView scrollView e))).
  set (e2 := setCurrentStep cfg (Some firstStep) true e1).
  destruct (setCurrentStep_frame cfg (Some firstStep) true e1)
    as (_ & _ & _ & Fv & Ft & Fr & _). cbv zeta in *. fold e2 in Fv, Ft, Fr.
  destruct (moveModalToStep_frame cfg (Some firstStep) e2)
    as (_ & _ & _ & Gv & Gt & Gr & _). cbv zeta in *.
  unfold setVisibility. rewrite Gv, Fv. subst e1. engine_fields. rewrite Ev.
  destruct (Engine.visible e); cbn [negb Bool.eqb]; engine_fields;
    rewrite ?Gt, ?Ft, ?Gr, ?Fr; engine_fields; rewrite ?Et;
    (split; [reflexivity |]); destruct scrollView; reflexivity.
Qed.



(** *** Invariants *)

Lemma engineOk_ext (e e' : Engine.t) :
  Engine.visible e' = Engine.visible e ->
  Engine.activeTour e' = Engine.activeTour e ->
  Engine.currentStep e' = Engine.currentStep e ->
  Engine.startTries e' = Engine.startTries e ->
  Engine.steps e' = Engine.steps e ->
  engineOk e -> engineOk e'.
Proof. unfold engineOk. intros -> -> -> -> ->. tauto. Qed.

Lemma logOk_ext (e e' : Engine.t) :
  Engine.activeTour e' = Engine.activeTour e ->
  Engine.emitted e' = Engine.emitted e ->
  logOk e -> logOk e'.
Proof. unfold logOk. intros -> ->. tauto. Qed.

Lemma initial_ok : engineOk Engine.initial /\ logOk Engine.initial.
Proof.
  split.
  - split; [discriminate |]. split; [tauto |]. split; [cbn; lia | apply registryOk_empty].
  - split; [discriminate |]. split; [intros ev [] | cbn; lia].
Qed.

Lemma stop_ok (e : Engine.t) :
  engineOk e /\ logOk e -> engineOk (stop e) /\ logOk (stop e).
Proof.
  intros [(Hv & Hac & Ht & Hr) (Hstart & Hev & Hcount)].
  destruct (Engine.visible e) eqn:Ev.
  - rewrite (stop_visible e Ev). cbv zeta.
    destruct (Hv eq_refl) as [k Hk]. rewrite Hk in *.
    destruct (truthy (Some k)) eqn:Etruthy; split.
    + unfold engineOk. engine_fields. split; [discriminate |]. tauto.
    + unfold logOk. engine_fields. split; [discriminate |]. split.
      * intros ev Hin. apply in_app_or in Hin as [Hin | [<- | []]].
        -- destruct (Hev ev Hin) as (k' & Hk' & Hin'). exists k'.
           split; [exact Hk' | apply in_or_app; now left].
        -- exists k. split; [| apply in_or_app; left; now apply Hstart].
           destruct k; [discriminate | reflexivity].
      * rewrite !List.filter_app, !length_app. cbn. lia.
    + unfold engineOk. engine_fields. split; [discriminate |]. tauto.
    + unfold logOk. engine_fields. split; [discriminate |]. split; [exact Hev | lia].
  - rewrite (stop_invisible e Ev). split.
    + unfold engineOk. engine_fields. split; [discriminate |]. tauto.
    + eapply logOk_ext; [reflexivity | reflexivity |]. repeat split; assumption.
Qed.

(** A navigation step: one [stepChange] to a step of the ordered list. *)
Lemma navigation_ok (cfg : Config.t) (e : Engine.t) (i : nat) (step : Step.t) (n : Z) :
  orderedSteps e !! i = Some step ->
  engineOk e /\ logOk e ->
  let e' := setCurrentStep cfg (Some step) true
              (Engine.emit (ev_stepChange (Engine.activeTour e) step n) e) in
  engineOk e' /\ logOk e'.
Proof.
  intros Hi [(Hv & Hac & Ht & Hr) (Hstart & Hev & Hcount)] e'.
  destruct (setCurrentStep_frame cfg (Some step) true
              (Engine.emit (ev_stepChange (Engine.activeTour e) step n) e))
    as (Fs & Fa & Fc & Fv & Ft & _ & Fe & _). cbv zeta in *. fold e' in Fs, Fa, Fc, Fv, Ft, Fe.
  engine_fields.
  destruct (orderedSteps_nonempty_active e) as (k & Hk & _).
  { intros El. rewrite El in Hi. discriminate. }
  split.
  - unfold engineOk. rewrite Fs, Fa, Fc, Fv, Ft, Hk. rewrite Hk in Hv.
    split; [exact Hv |]. split; [split; discriminate |]. tauto.
  - unfold logOk. rewrite Fa, Fe, Hk in *. split; [| split].
    + intros k' Hk'. apply in_or_app. left. auto.
    + intros ev Hin. apply in_app_or in Hin as [Hin | [<- | []]].
      * destruct (Hev ev Hin) as (k' & Hk' & Hin'). exists k'.
        split; [exact Hk' | apply in_or_app; now left].
      * exists k. split; [reflexivity | apply in_or_app; left; now apply Hstart].
    + rewrite !List.filter_app, !length_app. cbn. lia.
Qed.

Lemma start_ok (cfg : Config.t) (tourKey : string) (fromStep : option string)
    (scrollView : option ScrollView) (e : Engine.t) :
  engineOk e /\ logOk e ->
  engineOk (fst (start cfg tourKey fromStep scrollView e))
  /\ logOk (fst (start cfg tourKey fromStep scrollView e)).
Proof.
  intros [Hok Hlog].
  destruct (withScrollView_frame scrollView e)
    as (Es & Ea & Ec & Ev & Et & _ & Ee & _). cbv zeta in *.
  destruct (le_lt_dec (Engine.startTries e) MAX_START_TRIES) as [Hle | Hgt].
  - destruct (firstStepOf (Engine.steps e) tourKey fromStep) as [firstStep |] eqn:Hfirst.
    + destruct (start_starts cfg tourKey fromStep scrollView e firstStep Hle Hfirst)
        as (_ & Ha & Hc & Hv & He & _ & Hs).
      destruct (start_starts_more cfg tourKey fromStep scrollView e firstStep Hle Hfirst)
        as (Ht & _).
      cbv zeta in *. set (e' := fst (start cfg tourKey fromStep scrollView e)) in *.
      destruct Hok as (_ & _ & Htries & Hr). destruct Hlog as (Hstart & Hev & Hcount).
      split.
      * unfold engineOk. rewrite Ha, Hc, Hs, Ht.
        split; [eauto |]. split; [split; discriminate |].
        split; [destruct (Engine.visible e); lia | exact Hr].
      * unfold logOk. rewrite Ha, He. split; [| split].
        -- intros k [= <-]. apply in_or_app. right. now left.
        -- intros ev Hin. apply in_app_or in Hin as [Hin | [<- | []]].
           ++ destruct (Hev ev Hin) as (k' & Hk' & Hin'). exists k'.
              split; [exact Hk' | apply in_or_app; now left].
           ++ exists tourKey. split; [reflexivity | apply in_or_app; right; now left].
        -- rewrite !List.filter_app, !length_app. cbn.
           destruct (Engine.activeTour e); lia.
    + rewrite start_defers by assumption. cbn [fst]. split.
      * destruct Hok as (Hv & Hac & Htries & Hr). unfold engineOk. engine_fields.
        rewrite Ev, Ea, Ec, Es. split; [exact Hv |]. split; [exact Hac |].
        split; [lia | exact Hr].
      * eapply logOk_ext; [| | exact Hlog]; engine_fields; assumption.
  - rewrite start_aborts by exact Hgt. cbn [fst]. split.
    + destruct Hok as (Hv & Hac & Htries & Hr). unfold engineOk. engine_fields.
      rewrite Ev, Ea, Ec, Es. split; [exact Hv |]. split; [exact Hac |].
      split; [lia | exact Hr].
    + eapply logOk_ext; [| | exact Hlog]; engine_fields; assumption.
Qed.

Lemma perform_ok (cfg : Config.t) (e : Engine.t) (op : Operation) :
  engineOk e /\ logOk e -> engineOk (perform cfg e op) /\ logOk (perform cfg e op).
Proof.
  intros Hok. destruct op; cbn [perform].
  - destruct Hok as [(Hv & Hac & Ht & Hr) Hlog]. split.
    + unfold engineOk, registerStep. engine_fields.
      split; [exact Hv |]. split; [exact Hac |]. split; [exact Ht |].
      now apply stepsReducer_ok.
    + eapply logOk_ext; [| | exact Hlog]; reflexivity.
  - destruct Hok as [(Hv & Hac & Ht & Hr) Hlog]. split.
    + unfold engineOk, unregisterStep. engine_fields.
      split; [exact Hv |]. split; [exact Hac |]. split; [exact Ht |].
      now apply stepsReducer_ok.
    + eapply logOk_ext; [| | exact Hlog]; reflexivity.
  - now apply start_ok.
  - now apply stop_ok.
  - unfold goToNext. destruct (at_index (orderedSteps e) (stepIndex e + 1)) as [s |] eqn:E;
      [| now apply stop_ok].
    unfold at_index in E. destruct (stepIndex e + 1 <? 0)%Z; [discriminate |].
    now apply (navigation_ok cfg e _ s _ E).
  - unfold goToPrev. destruct (at_index (orderedSteps e) (stepIndex e - 1)) as [s |] eqn:E;
      [| exact Hok].
    unfold at_index in E. destruct (stepIndex e - 1 <? 0)%Z; [discriminate |].
    now apply (navigation_ok cfg e _ s _ E).
  - unfold goToNth. destruct (at_index (orderedSteps e) (n - 1)) as [s |] eqn:E;
      [| exact Hok].
    unfold at_index in E. destruct (n - 1 <? 0)%Z; [discriminate |].
    now apply (navigation_ok cfg e _ s _ E).
  - unfold remeasureCurrentStep. destruct (Engine.currentStep e) as [s |]; [| exact Hok].
    destruct (moveModalToStep_frame cfg (Some s) e)
      as (Fs & Fa & Fc & Fv & Ft & _ & Fe & _). cbv zeta in *.
    destruct Hok as [Hok Hlog]. split.
    + now apply (engineOk_ext e).
    + now apply (logOk_ext e).
  - unfold handleMaskClick. destruct stopOnOutsideClick; [now apply stop_ok | exact Hok].
  - unfold hardwareBackPress. destruct (Engine.visible e); [now apply stop_ok | exact Hok].
Qed.

Lemma performAll_ok (cfg : Config.t) (ops : list Operation) :
  engineOk (performAll cfg ops) /\ logOk (performAll cfg ops).
Proof.
  unfold performAll. generalize initial_ok. generalize Engine.initial.
  induction ops as [| op ops IH]; intros e Hok; cbn; [exact Hok |].
  apply IH, perform_ok, Hok.
Qed.

(** X14. After any sequence of operations on a fresh provider that do not
    overlap, each one issued once the one before has run its course and the
    provider has rendered again: a visible overlay has an active tour and a
    current step; the active tour and the current step are set together and
    cleared together; the retry counter of [start] is at most 121; and the
    registry files every step under its own tour and name, each name once
    per tour. (Operations that overlap, such as a [start] issued while a
    [stop] still awaits, are no run of [performAll].) *)
Theorem provider_state_invariant (cfg : Config.t) (ops : list Operation) :
  let e := performAll cfg ops in
  (Engine.visible e = true ->
   is_Some (Engine.activeTour e) /\ is_Some (Engine.currentStep e))
  /\ (Engine.activeTour e = None <-> Engine.currentStep e = None)
  /\ Engine.startTries e <= 121
  /\ registryOk (Engine.steps e).
Proof.
  intros e. destruct (performAll_ok cfg ops) as [(Hv & Hac & Ht & Hr) _]. fold e in Hv, Hac, Ht, Hr.
  split; [| split; [exact Hac | split; [exact Ht | exact Hr]]].
  intros H. specialize (Hv H). split; [exact Hv |].
  destruct (Engine.currentStep e) eqn:E; [eauto |].
  destruct Hv as [k Hk]. destruct Hac as [_ Hac]. rewrite Hac in Hk by reflexivity.
  discriminate.
Qed.

(** X15. After any sequence of operations on a fresh provider: the active
    tour has its [start] in the log; every event of the log names a tour
    whose [start] is in the log; and the log holds no more [stop] events
    than [start] events. *)
Theorem provider_log_invariant (cfg : Config.t) (ops : list Operation) :
  let e := performAll cfg ops in
  (forall k, Engine.activeTour e = Some k -> In (ev_start k) (Engine.emitted e))
  /\ (forall ev, In ev (Engine.emitted e) ->
        exists k, eventTour ev = Some k /\ In (ev_start k) (Engine.emitted e))
  /\ length (List.filter isStop (Engine.emitted e))
     <= length (List.filter isStart (Engine.emitted e)).
Proof.
  intros e. destruct (performAll_ok cfg ops) as [_ (Hstart & Hev & Hcount)].
  fold e in Hstart, Hev, Hcount.
  split; [exact Hstart |]. split; [exact Hev | lia].
Qed.

(** ** The control hooks *)

(** X16. Once [start], its counter within the cap, has found the first step
    of a tour and shown it, the control of that tour is active and reports
    that step; the control of any other tour is inactive and reports no
    step and the numbers 0. For a tour key other than the empty string the
    control reports the number of visible steps of the tour, and the step
    number 1 after a start without [fromStep]; for the empty string as tour
    key it reports 0 for both numbers, whatever is registered. *)
Theorem control_after_start (cfg : Config.t) (e : Engine.t) (tourKey : string)
    (fromStep : option string) (scrollView : option ScrollView) (firstStep : Step.t) :
  Engine.startTries e <= MAX_START_TRIES ->
  firstStepOf (Engine.steps e) tourKey fromStep = Some firstStep ->
  let started := fst (start cfg tourKey fromStep scrollView e) in
  TourControl.isActive (useTourControl tourKey started) = true
  /\ TourControl.currentStep (useTourControl tourKey started) = Some firstStep
  /\ (tourKey <> "" ->
      TourControl.totalStepsNumber (useTourControl tourKey started)
      = Z.of_nat (length (orderedTourSteps (Engine.steps e) tourKey))
      /\ (truthy fromStep = false ->
          TourControl.currentStepNumber (useTourControl tourKey started) = 1%Z))
  /\ (tourKey = "" ->
      TourControl.totalStepsNumber (useTourControl tourKey started) = 0%Z
      /\ TourControl.currentStepNumber (useTourControl tourKey started) = 0%Z)
  /\ (forall other, other <> tourKey ->
        useTourControl other started = TourControl.mk false None 0 0).
Proof.
  intros Htries Hfirst started.
  destruct (start_starts cfg tourKey fromStep scrollView e firstStep Htries Hfirst)
    as (_ & Ha & Hc & Hv & _ & _ & Hs).
  cbv zeta in *. fold started in Ha, Hc, Hv, Hs.
  unfold useTourControl, activeTourIs. rewrite Ha, Hv.
  split; [cbn; now rewrite String.eqb_refl |].
  rewrite String.eqb_refl. cbn [andb TourControl.currentStep TourControl.totalStepsNumber
    TourControl.currentStepNumber].
  split; [exact Hc |]. split; [| split].
  - intros Hkey.
    assert (Hl : orderedSteps started = orderedTourSteps (Engine.steps e) tourKey).
    { rewrite (orderedSteps_active started tourKey Ha Hkey). now rewrite Hs. }
    split; [unfold totalStepsNumber; now rewrite Hl |].
    intros Hfrom. unfold currentStepNumber.
    rewrite (stepIndex_first started firstStep firstStep 0 Hc); [reflexivity | |
      reflexivity | intros k s Hk; lia].
    rewrite Hl. unfold firstStepOf in Hfirst. cbv zeta in Hfirst.
    now rewrite Hfrom in Hfirst.
  - intros Hkey.
    assert (Hl : orderedSteps started = []).
    { unfold orderedSteps. rewrite Ha, Hkey. reflexivity. }
    unfold totalStepsNumber, currentStepNumber, stepIndex. rewrite Hl, Hc.
    split; reflexivity.
  - intros other Hother. destruct (String.eqb_spec tourKey other); [congruence |].
    reflexivity.
Qed.

Lemma control_after_start_witness :
  TourControl.isActive (useTourControl "u" engine_on_u) = true
  /\ TourControl.currentStepNumber (useTourControl "u" engine_on_u) = 1%Z
  /\ useTourControl "t" engine_on_u = TourControl.mk false None 0 0.
Proof.
  destruct (control_after_start config_default engine_registered "u" None None step_c)
    as (H1 & _ & H3 & _ & H5).
  - vm_compute. repeat constructor.
  - reflexivity.
  - destruct H3 as [_ H4]; [discriminate |].
    split; [exact H1 |]. split; [exact (H4 eq_refl) |]. apply H5. discriminate.
Defined.

(** X17. The callbacks that a control receives from a log of events are
    those of the events about its own tour, one for one and in the order of
    the log, with [completed], the step and the step number passed on. *)
Theorem control_hears_own_tour (tourKey : string) (log : list TourEvent) :
  omap (controlHandler tourKey) log
  = map eventCall (List.filter (aboutTour tourKey) log).
Proof.
  induction log as [| ev log IH]; [reflexivity |].
  cbn [omap list_omap List.filter]. fold (omap (controlHandler tourKey) log). rewrite IH.
  destruct ev as [k | k completed | [k |] step n]; cbn;
    try (destruct (String.eqb k tourKey)); reflexivity.
Qed.

(** ** [TourStep] *)

Local Open Scope Q_scope.

(** X18. [measure] resolves with what the first frame shows on which the
    element is there and has a width or a height, in page coordinates; the
    frames before it are those it tried again on. It never resolves with a
    rectangle of width 0 and height 0, and is pending as long as no frame
    shows a size. *)
Theorem measure_first_laid_out (frames : list (option Measured.t)) :
  match measure frames with
  | Some rect =>
      ~ (LayoutRect.width rect == 0 /\ LayoutRect.height rect == 0)
      /\ exists before m after,
           frames = before ++ Some m :: after
           /\ Forall notLaidOut before
           /\ rect = LayoutRect.mk (Measured.pageX m) (Measured.pageY m)
                       (Measured.width m) (Measured.height m)
  | None => Forall notLaidOut frames
  end.
Proof.
  induction frames as [| [m |] frames IH]; cbn [measure].
  - constructor.
  - destruct (Qeq_bool (Measured.width m) 0 && Qeq_bool (Measured.height m) 0) eqn:E.
    + apply andb_true_iff in E as [Ew Eh]. apply Qeq_bool_iff in Ew, Eh.
      destruct (measure frames) as [rect |].
      * destruct IH as (Hsize & before & m' & after & -> & Hbefore & ->).
        split; [exact Hsize |]. exists (Some m :: before), m', after.
        split; [reflexivity |]. split; [| reflexivity].
        constructor; [split; assumption | exact Hbefore].
      * constructor; [split; assumption | exact IH].
    + split.
      * cbn. intros [Hw Hh]. apply Qeq_bool_iff in Hw, Hh. rewrite Hw, Hh in E.
        discriminate.
      * exists [], m, frames. split; [reflexivity |]. split; [constructor | reflexivity].
  - destruct (measure frames) as [rect |].
    + destruct IH as (Hsize & before & m' & after & -> & Hbefore & ->).
      split; [exact Hsize |]. exists (None :: before), m', after.
      split; [reflexivity |]. split; [| reflexivity].
      constructor; [exact I | exact Hbefore].
    + constructor; [exact I | exact IH].
Qed.

Local Close Scope Q_scope.

(** X19. When a mounted, active [TourStep] runs its effect under a new name,
    the registry files the step of the new props under the new name, the
    names of the tour other than the old and the new one are as they were,
    and the component remembers the new name. The step filed under the old
    name is dropped when the old name is not the empty string; a step that
    was registered under the empty string stays filed under it. *)
Theorem TourStep_renamed (props : TourStepProps.t) (measured : option LayoutRect.t)
    (old : string) (e : Engine.t) :
  nullish (TourStepProps.active props) true = true ->
  old <> TourStepProps.name props ->
  let r := registrationEffect props measured (Some old) e in
  let before := tourStepsOf (Engine.steps e) (TourStepProps.tourKey props) in
  let tourSteps := tourStepsOf (Engine.steps (fst r)) (TourStepProps.tourKey props) in
  snd r = Some (TourStepProps.name props)
  /\ JSObject.get (TourStepProps.name props) tourSteps = Some (stepOfProps props measured)
  /\ (old <> "" -> JSObject.get old tourSteps = None)
  /\ (old = "" -> JSObject.get old tourSteps = JSObject.get old before)
  /\ (forall name, name <> old -> name <> TourStepProps.name props ->
        JSObject.get name tourSteps = JSObject.get name before).
Proof.
  intros Hactive Hne r before tourSteps. subst tourSteps before r.
  unfold registrationEffect. rewrite Hactive.
  destruct (String.eqb_spec (default "" (Some old)) (TourStepProps.name props));
    [cbn in *; congruence |].
  cbn [default from_option id negb fst snd].
  destruct old as [| c old'].
  - cbn [truthy andb]. unfold registerStep. engine_fields.
    destruct (get_registered (Engine.steps e) (stepOfProps props measured))
      as (Hget & Hother & _).
    cbv zeta in *.
    change (Step.tourKey (stepOfProps props measured)) with (TourStepProps.tourKey props)
      in Hget, Hother.
    change (Step.name (stepOfProps props measured)) with (TourStepProps.name props)
      in Hget, Hother.
    split; [reflexivity |]. split; [exact Hget |]. split; [congruence |].
    split; [intros _; apply Hother; exact Hne |].
    intros name _ H2. apply Hother. exact H2.
  - cbn [truthy andb]. unfold registerStep, unregisterStep. engine_fields.
    set (old := String c old') in *.
    set (state := stepsReducer (Engine.steps e)
                    (unregister old (TourStepProps.tourKey props))).
    destruct (get_registered state (stepOfProps props measured))
      as (Hget & Hother & _).
    destruct (get_unregistered (Engine.steps e) old (TourStepProps.tourKey props))
      as (Hgone & Hkept & _).
    cbv zeta in *. fold state in Hgone, Hkept.
    change (Step.tourKey (stepOfProps props measured)) with (TourStepProps.tourKey props)
      in Hget, Hother.
    change (Step.name (stepOfProps props measured)) with (TourStepProps.name props)
      in Hget, Hother.
    split; [reflexivity |]. split; [exact Hget |]. split; [| split].
    + intros _. rewrite Hother by exact Hne. exact Hgone.
    + discriminate.
    + intros name H1 H2. rewrite Hother by exact H2. apply Hkept. exact H1.
Qed.

Lemma TourStep_renamed_witness :
  JSObject.get "d"
    (tourStepsOf
       (Engine.steps
          (fst (registrationEffect
                  (TourStepProps.mk "z" 2%Q "last" "u" None None None) None
                  (Some "d") engine_registered))) "u") = None
  /\ JSObject.get "z"
       (tourStepsOf
          (Engine.steps
             (fst (registrationEffect
                     (TourStepProps.mk "z" 2%Q "last" "u" None None None) None
                     (Some "d") engine_registered))) "u")
     = Some (stepOfProps (TourStepProps.mk "z" 2%Q "last" "u" None None None) None).
Proof.
  destruct (TourStep_renamed (TourStepProps.mk "z" 2%Q "last" "u" None None None) None
              "d" engine_registered) as (_ & Hnew & Hold & _).
  - reflexivity.
  - discriminate.
  - split; [apply Hold; discriminate | exact Hnew].
Defined.

(** X20. Mounting an active [TourStep] under a name that its tour does not
    hold and unmounting it gives every tour the steps it had. *)
Theorem TourStep_mount_unmount (props : TourStepProps.t) (measured : option LayoutRect.t)
    (e : Engine.t) :
  nullish (TourStepProps.active props) true = true ->
  TourStepProps.name props <> "" ->
  JSObject.get (TourStepProps.name props)
    (tourStepsOf (Engine.steps e) (TourStepProps.tourKey props)) = None ->
  let mounted := registrationEffect props measured None e in
  JSObject.get (TourStepProps.name props)
    (tourStepsOf (Engine.steps (fst mounted)) (TourStepProps.tourKey props))
  = Some (stepOfProps props measured)
  /\ forall tourKey,
       tourStepsOf (Engine.steps (registrationCleanup props (snd mounted) (fst mounted)))
         tourKey
       = tourStepsOf (Engine.steps e) tourKey.
Proof.
  intros Hactive Hname Hfresh mounted. subst mounted.
  assert (Htruthy : truthy (Some (TourStepProps.name props)) = true)
    by (destruct (TourStepProps.name props); [congruence | reflexivity]).
  unfold registrationEffect, registrationCleanup. rewrite Hactive.
  change (truthy None) with false. cbn [andb fst snd]. rewrite Htruthy.
  cbn [default from_option id]. unfold registerStep, unregisterStep. engine_fields.
  split.
  - apply (get_registered (Engine.steps e) (stepOfProps props measured)).
  - apply (tourStepsOf_register_unregister (Engine.steps e) (stepOfProps props measured)).
    exact Hfresh.
Qed.

Lemma TourStep_mount_unmount_witness :
  tourStepsOf
    (Engine.steps
       (registrationCleanup (TourStepProps.mk "z" 2%Q "last" "u" None None None)
          (snd (registrationEffect (TourStepProps.mk "z" 2%Q "last" "u" None None None)
                  None None engine_registered))
          (fst (registrationEffect (TourStepProps.mk "z" 2%Q "last" "u" None None None)
                  None None engine_registered)))) "u"
  = tourStepsOf (Engine.steps engine_registered) "u".
Proof.
  destruct (TourStep_mount_unmount (TourStepProps.mk "z" 2%Q "last" "u" None None None)
              None engine_registered) as (_ & H).
  - reflexivity.
  - discriminate.
  - reflexivity.
  - apply H.
Defined.

(** ** The event bus, further *)

Section emitter_more.
Import TourEventEmitter.

Lemma setHas_In (cb : Callback) (sd : SetData) :
  setHas cb sd = true <-> In cb (setValues sd).
Proof.
  unfold setHas, setValues. induction sd as [| [c |] sd IH]; cbn.
  - split; [discriminate | tauto].
  - rewrite orb_true_iff, IH, Nat.eqb_eq. tauto.
  - exact IH.
Qed.

Lemma setValues_app (sd sd' : SetData) :
  setValues (sd ++ sd') = setValues sd ++ setValues sd'.
Proof. apply omap_app. Qed.

Lemma setValues_setAdd (cb : Callback) (sd : SetData) :
  setValues (setAdd cb sd)
  = if setHas cb sd then setValues sd else setValues sd ++ [cb].
Proof.
  unfold setAdd. destruct (setHas cb sd); [reflexivity |]. apply setValues_app.
Qed.

Lemma setValues_setDelete (cb : Callback) (sd : SetData) :
  setValues (setDelete cb sd)
  = List.filter (fun c => negb (Nat.eqb c cb)) (setValues sd).
Proof.
  unfold setDelete, setValues. induction sd as [| [c |] sd IH]; cbn; [reflexivity | |].
  - destruct (Nat.eqb c cb); cbn; now rewrite IH.
  - exact IH.
Qed.

Lemma setDelete_absent (cb : Callback) (sd : SetData) :
  ~ In cb (setValues sd) -> setDelete cb sd = sd.
Proof.
  unfold setDelete, setValues. induction sd as [| [c |] sd IH]; cbn; intros H;
    [reflexivity | |].
  - destruct (Nat.eqb_spec c cb) as [-> | Hne]; [tauto |]. f_equal. tauto.
  - f_equal. auto.
Qed.

Lemma NoDup_filter_list {A : Type} (p : A -> bool) (l : list A) :
  NoDup l -> NoDup (List.filter p l).
Proof.
  induction 1 as [| x l Hx Hl IH]; cbn; [constructor |].
  destruct (p x); [| exact IH]. constructor; [| exact IH].
  rewrite list_elem_of_In, filter_In, <- list_elem_of_In. tauto.
Qed.

Lemma default_alter {A : Type} (f : A -> A) (d : A) (l : list A) (a a' : nat) :
  a < length l ->
  default d (alter f a l !! a')
  = if Nat.eqb a a' then f (default d (l !! a')) else default d (l !! a').
Proof.
  revert a a'. induction l as [| x l IH]; intros a a' Ha; cbn in Ha; [lia |].
  destruct a as [| a], a' as [| a']; cbn; try reflexivity.
  apply IH. lia.
Qed.

Lemma default_snoc {A : Type} (d x : A) (l : list A) (a : nat) :
  default d ((l ++ [x]) !! a)
  = if Nat.eqb a (length l) then x else default d (l !! a).
Proof.
  revert a. induction l as [| y l IH]; intros [| a]; cbn; try reflexivity.
  apply IH.
Qed.

Lemma setAt_alter (f : SetData -> SetData) (em : t) (a a' : nat) :
  a < length (heap em) ->
  setAt (mk (alter f a (heap em)) (listeners em)) a'
  = if Nat.eqb a a' then f (setAt em a) else setAt em a'.
Proof.
  intros Ha. pose proof (default_alter f [] (heap em) a a' Ha) as H.
  destruct (Nat.eqb_spec a a') as [<- | _]; exact H.
Qed.

Lemma setAt_new (f : SetData -> SetData) (em : t) (m : TourEventType.t -> option nat)
    (a : nat) :
  setAt (mk (alter f (length (heap em)) (heap em ++ [[]])) m) a
  = if Nat.eqb a (length (heap em)) then f [] else setAt em a.
Proof.
  assert (Hlt : length (heap em) < length (heap em ++ [[] : SetData]))
    by (rewrite length_app; cbn; lia).
  etransitivity;
    [exact (default_alter f [] (heap em ++ [[]]) (length (heap em)) a Hlt) |].
  rewrite (Nat.eqb_sym (length (heap em)) a).
  pose proof (default_snoc ([] : SetData) [] (heap em) a) as Hs.
  destruct (Nat.eqb a (length (heap em))); [f_equal |]; exact Hs.
Qed.

Lemma mapSet_same (event : TourEventType.t) (a : option nat)
    (m : TourEventType.t -> option nat) :
  mapSet event a m event = a.
Proof. unfold mapSet. now destruct event. Qed.

Lemma mapSet_other (event event' : TourEventType.t) (a : option nat)
    (m : TourEventType.t -> option nat) :
  event' <> event -> mapSet event a m event' = m event'.
Proof. unfold mapSet. destruct event, event'; cbn; congruence. Qed.

(** What [on] leaves: the callbacks of the event, and those of the others. *)
Lemma subscribed_on (event : TourEventType.t) (cb : Callback) (em : t) :
  emitterOk em ->
  subscribed event (on event cb em)
  = (if setHas cb (match listeners em event with
                   | Some a => setAt em a
                   | None => []
                   end)
     then subscribed event em else subscribed event em ++ [cb])
  /\ (forall event', event' <> event ->
        subscribed event' (on event cb em) = subscribed event' em).
Proof.
  intros Hok. unfold on, subscribed.
  destruct (listeners em event) as [a |] eqn:Ea.
  - rewrite Ea. cbn [listeners]. rewrite Ea.
    destruct (Hok event a Ea) as (Hlt & _ & Hown). split.
    + rewrite (setAt_alter _ em a a Hlt), Nat.eqb_refl. apply setValues_setAdd.
    + intros event' Hne. destruct (listeners em event') as [a' |] eqn:Ea'; [| reflexivity].
      rewrite (setAt_alter _ em a a' Hlt).
      destruct (Nat.eqb_spec a a') as [<- | _]; [| reflexivity].
      specialize (Hown event' Ea'). congruence.
  - cbv zeta. cbn [listeners heap]. rewrite ?mapSet_same. cbn [listeners heap].
    rewrite ?mapSet_same. split.
    + rewrite setAt_new, Nat.eqb_refl. reflexivity.
    + intros event' Hne. rewrite mapSet_other by exact Hne.
      destruct (listeners em event') as [a' |] eqn:Ea'; [| reflexivity].
      destruct (Hok event' a' Ea') as (Hlt & _). rewrite setAt_new.
      destruct (Nat.eqb_spec a' (length (heap em))); [lia | reflexivity].
Qed.

Lemma subscribed_on_first (event : TourEventType.t) (cb : Callback) (em : t) :
  listeners em event = None -> subscribed event (on event cb em) = [cb].
Proof.
  intros Ea. unfold on, subscribed. rewrite Ea.
  cbv zeta. cbn [listeners heap]. rewrite ?mapSet_same. cbn [listeners heap].
  rewrite ?mapSet_same. rewrite setAt_new, Nat.eqb_refl. reflexivity.
Qed.

Lemma subscribed_off (event : TourEventType.t) (cb : Callback) (em : t) :
  emitterOk em ->
  subscribed event (off event cb em)
  = List.filter (fun c => negb (Nat.eqb c cb)) (subscribed event em)
  /\ (forall event', event' <> event ->
        subscribed event' (off event cb em) = subscribed event' em).
Proof.
  intros Hok. unfold off, subscribed.
  destruct (listeners em event) as [a |] eqn:Ea.
  - cbn [listeners]. rewrite Ea.
    destruct (Hok event a Ea) as (Hlt & _ & Hown). split.
    + rewrite (setAt_alter _ em a a Hlt), Nat.eqb_refl. apply setValues_setDelete.
    + intros event' Hne. destruct (listeners em event') as [a' |] eqn:Ea'; [| reflexivity].
      rewrite (setAt_alter _ em a a' Hlt).
      destruct (Nat.eqb_spec a a') as [<- | _]; [| reflexivity].
      specialize (Hown event' Ea'). congruence.
  - rewrite Ea. split; [reflexivity | reflexivity].
Qed.

Lemma emitterOk_empty : emitterOk empty.
Proof. intros event a H. discriminate. Qed.

Lemma emitterStep_ok (em : t) (op : EmitterOp) :
  emitterOk em -> emitterOk (emitterStep em op).
Proof.
  intros Hok. destruct op as [event cb | event cb | event]; cbn [emitterStep].
  - intros ev a Ha. unfold on in *.
    destruct (listeners em event) as [a0 |] eqn:E0.
    + rewrite E0 in *. cbn [listeners heap] in *.
      destruct (Hok ev a Ha) as (Hlt & Hnd & Hown).
      destruct (Hok event a0 E0) as (Hlt0 & Hnd0 & _).
      rewrite length_alter. split; [exact Hlt |]. split; [| exact Hown].
      rewrite (setAt_alter _ em a0 a Hlt0).
      destruct (Nat.eqb_spec a0 a) as [<- | _]; [| exact Hnd].
      rewrite setValues_setAdd. destruct (setHas cb (setAt em a0)) eqn:Ehas; [exact Hnd0 |].
      apply NoDup_app. split; [exact Hnd0 |]. split; [| apply NoDup_singleton].
      intros c Hc Hc'. apply list_elem_of_singleton in Hc'. subst c.
      apply list_elem_of_In, setHas_In in Hc. congruence.
    + cbv zeta in *. cbn [listeners heap] in *. rewrite ?mapSet_same in *.
      cbn [listeners heap] in *. rewrite ?mapSet_same in *.
      rewrite length_alter, length_app. cbn [length].
      destruct (TourEventType.eqb ev event) eqn:Eev.
      * assert (ev = event) by (destruct ev, event; cbn in Eev; congruence). subst ev.
        rewrite mapSet_same in Ha. injection Ha as <-.
        split; [lia |]. split.
        -- rewrite setAt_new, Nat.eqb_refl. cbn. apply NoDup_singleton.
        -- intros ev' Hev'. destruct (TourEventType.eqb ev' event) eqn:E';
             [destruct ev', event; cbn in E'; congruence |].
           assert (Hne : ev' <> event) by (intros ->; destruct event; discriminate).
           rewrite mapSet_other in Hev' by exact Hne.
           destruct (Hok ev' _ Hev') as (Hlt & _). lia.
      * assert (Hne : ev <> event) by (intros ->; destruct event; discriminate).
        rewrite mapSet_other in Ha by exact Hne.
        destruct (Hok ev a Ha) as (Hlt & Hnd & Hown).
        split; [lia |]. split.
        -- rewrite setAt_new.
           destruct (Nat.eqb_spec a (length (heap em))); [lia | exact Hnd].
        -- intros ev' Hev'. destruct (TourEventType.eqb ev' event) eqn:E'.
           ++ assert (ev' = event) by (destruct ev', event; cbn in E'; congruence).
              subst ev'. rewrite mapSet_same in Hev'. injection Hev' as Hev'. lia.
           ++ assert (Hne' : ev' <> event) by (intros ->; destruct event; discriminate).
              rewrite mapSet_other in Hev' by exact Hne'. auto.
  - intros ev a Ha. unfold off in *.
    destruct (listeners em event) as [a0 |] eqn:E0; [| now apply Hok].
    cbn [listeners heap] in *.
    destruct (Hok ev a Ha) as (Hlt & Hnd & Hown).
    destruct (Hok event a0 E0) as (Hlt0 & Hnd0 & _).
    rewrite length_alter. split; [exact Hlt |]. split; [| exact Hown].
    rewrite (setAt_alter _ em a0 a Hlt0).
    destruct (Nat.eqb_spec a0 a) as [<- | _]; [| exact Hnd].
    rewrite setValues_setDelete. now apply NoDup_filter_list.
  - intros ev a Ha. destruct event as [event |]; cbn [removeAllListeners listeners heap] in *.
    + destruct (TourEventType.eqb ev event) eqn:Eev.
      * assert (ev = event) by (destruct ev, event; cbn in Eev; congruence). subst ev.
        rewrite mapSet_same in Ha. discriminate.
      * assert (Hne : ev <> event) by (intros ->; destruct event; discriminate).
        rewrite mapSet_other in Ha by exact Hne.
        destruct (Hok ev a Ha) as (Hlt & Hnd & Hown).
        split; [exact Hlt |]. split; [exact Hnd |].
        intros ev' Hev'. destruct (TourEventType.eqb ev' event) eqn:E'.
        -- assert (ev' = event) by (destruct ev', event; cbn in E'; congruence).
           subst ev'. rewrite mapSet_same in Hev'. discriminate.
        -- assert (Hne' : ev' <> event) by (intros ->; destruct event; discriminate).
           rewrite mapSet_other in Hev' by exact Hne'. auto.
    + discriminate.
Qed.

Lemma emitterAfter_ok (ops : list EmitterOp) : emitterOk (emitterAfter ops).
Proof.
  unfold emitterAfter. generalize emitterOk_empty. generalize empty.
  induction ops as [| op ops IH]; intros em Hok; cbn; [exact Hok |].
  apply IH, emitterStep_ok, Hok.
Qed.

Lemma subscribed_NoDup (em : t) (event : TourEventType.t) :
  emitterOk em -> NoDup (subscribed event em).
Proof.
  intros Hok. unfold subscribed. destruct (listeners em event) as [a |] eqn:Ea.
  - now destruct (Hok event a Ea) as (_ & Hnd & _).
  - constructor.
Qed.

End emitter_more.

(** X21. On an emitter built by subscriptions, [on] adds the callback at the
    end of the callbacks of the event unless it is there already, so that a
    callback is subscribed to an event at most once; the callbacks of the
    other events are as they were. *)
Theorem on_subscribes_once (ops : list EmitterOp) (event : TourEventType.t)
    (callback : TourEventEmitter.Callback) :
  let em := emitterAfter ops in
  let em' := TourEventEmitter.on event callback em in
  (In callback (TourEventEmitter.subscribed event em) ->
   TourEventEmitter.subscribed event em' = TourEventEmitter.subscribed event em)
  /\ (~ In callback (TourEventEmitter.subscribed event em) ->
      TourEventEmitter.subscribed event em'
      = TourEventEmitter.subscribed event em ++ [callback])
  /\ NoDup (TourEventEmitter.subscribed event em')
  /\ (forall event', event' <> event ->
        TourEventEmitter.subscribed event' em' = TourEventEmitter.subscribed event' em).
Proof.
  intros em em'.
  pose proof (emitterAfter_ok ops) as Hok. fold em in Hok.
  destruct (subscribed_on event callback em Hok) as [Hsame Hother]. fold em' in Hsame, Hother.
  assert (Hhas : TourEventEmitter.setHas callback
                   (match TourEventEmitter.listeners em event with
                    | Some a => TourEventEmitter.setAt em a
                    | None => []
                    end) = true
                 <-> In callback (TourEventEmitter.subscribed event em)).
  { rewrite setHas_In. unfold TourEventEmitter.subscribed.
    destruct (TourEventEmitter.listeners em event); reflexivity. }
  split; [| split; [| split]].
  - intros Hin. apply Hhas in Hin. now rewrite Hsame, Hin.
  - intros Hnin. rewrite Hsame.
    destruct (TourEventEmitter.setHas callback _) eqn:E; [| reflexivity].
    exfalso. apply Hnin, Hhas. reflexivity.
  - apply subscribed_NoDup.
    exact (emitterStep_ok em (em_on event callback) Hok).
  - exact Hother.
Qed.

Lemma filter_absent (cb : TourEventEmitter.Callback) (l : list TourEventEmitter.Callback) :
  ~ In cb l -> List.filter (fun c => negb (Nat.eqb c cb)) l = l.
Proof.
  induction l as [| c l IH]; cbn; intros H; [reflexivity |].
  destruct (Nat.eqb_spec c cb) as [-> | _]; [tauto |]. cbn. f_equal. tauto.
Qed.

(** X22. On an emitter built by subscriptions, [off] removes the callback
    from the callbacks of the event and keeps the others in their order;
    the callbacks of the other events are as they were; and unsubscribing
    a callback that was just subscribed for the first time gives back the
    subscriptions there were. *)
Theorem off_unsubscribes (ops : list EmitterOp) (event : TourEventType.t)
    (callback : TourEventEmitter.Callback) :
  let em := emitterAfter ops in
  let em' := TourEventEmitter.off event callback em in
  TourEventEmitter.subscribed event em'
  = List.filter (fun c => negb (Nat.eqb c callback)) (TourEventEmitter.subscribed event em)
  /\ ~ In callback (TourEventEmitter.subscribed event em')
  /\ (forall event', event' <> event ->
        TourEventEmitter.subscribed event' em' = TourEventEmitter.subscribed event' em)
  /\ (~ In callback (TourEventEmitter.subscribed event em) ->
      forall event',
        TourEventEmitter.subscribed event'
          (TourEventEmitter.off event callback (TourEventEmitter.on event callback em))
        = TourEventEmitter.subscribed event' em).
Proof.
  intros em em'.
  pose proof (emitterAfter_ok ops) as Hok. fold em in Hok.
  destruct (subscribed_off event callback em Hok) as [Hsame Hother].
  fold em' in Hsame, Hother.
  split; [exact Hsame |]. split; [| split; [exact Hother |]].
  - rewrite Hsame, filter_In, negb_true_iff, Nat.eqb_neq. tauto.
  - intros Hnin event'.
    pose proof (emitterStep_ok em (em_on event callback) Hok) as Hok'.
    cbn [emitterStep] in Hok'.
    destruct (subscribed_off event callback _ Hok') as [Hsame' Hother'].
    destruct (subscribed_on event callback em Hok) as [Hon Hon'].
    destruct (TourEventType.eqb event' event) eqn:E.
    + assert (event' = event) by (destruct event', event; cbn in E; congruence). subst event'.
      rewrite Hsame', Hon.
      destruct (TourEventEmitter.setHas callback _) eqn:Ehas.
      * now apply filter_absent.
      * rewrite List.filter_app, filter_absent by exact Hnin. cbn.
        rewrite Nat.eqb_refl. cbn. apply app_nil_r.
    + assert (Hne : event' <> event) by (intros ->; destruct event; discriminate).
      now rewrite Hother', Hon'.
Qed.

(** X23. After [removeAllListeners(event)] an emission of the event calls
    nothing and the subscriptions to the other events are as they were;
    without an argument no event has a subscriber left; and a callback
    subscribed to the event afterwards is its only subscriber. *)
Theorem removeAllListeners_clears {Data Host Error : Type}
    (call : TourEventEmitter.Callback -> Data -> TourEventEmitter.t * Host ->
            (TourEventEmitter.t * Host) * TourEventEmitter.Completion Error)
    (em : TourEventEmitter.t) (event : TourEventType.t) (fuel : nat) (data : Data)
    (host : Host) (callback : TourEventEmitter.Callback) :
  let em' := TourEventEmitter.removeAllListeners (Some event) em in
  TourEventEmitter.emit call fuel event data (em', host)
  = Some (TourEventEmitter.mkEmission (em', host) [] [])
  /\ (forall event', event' <> event ->
        TourEventEmitter.subscribed event' em' = TourEventEmitter.subscribed event' em)
  /\ (forall event',
        TourEventEmitter.subscribed event' (TourEventEmitter.removeAllListeners None em) = [])
  /\ TourEventEmitter.subscribed event (TourEventEmitter.on event callback em') = [callback].
Proof.
  intros em'.
  assert (Hnone : TourEventEmitter.listeners em' event = None).
  { unfold em'. cbn. apply mapSet_same. }
  split; [| split; [| split]].
  - unfold TourEventEmitter.emit. cbn [fst]. now rewrite Hnone.
  - intros event' Hne. unfold TourEventEmitter.subscribed, em'. cbn.
    now rewrite mapSet_other.
  - reflexivity.
  - now apply subscribed_on_first.
Qed.

Section emitter_self.
Import TourEventEmitter.
Context {Data Host Error : Type}.
Variable call : Callback -> Data -> t * Host -> (t * Host) * Completion Error.
Variable event : TourEventType.t.
Variable data : Data.
Variable a : nat.
Hypothesis Hself : unsubscribesSelfOnly call a.

Lemma setDelete_drop (cb : Callback) (n : nat) (sd : SetData) :
  drop n (setDelete cb sd) = setDelete cb (drop n sd).
Proof.
  unfold setDelete. revert n. induction sd as [| s sd IH]; intros [| n]; cbn;
    try reflexivity. apply IH.
Qed.

Lemma setDelete_length (cb : Callback) (sd : SetData) :
  length (setDelete cb sd) = length sd.
Proof. unfold setDelete. apply length_map. Qed.

Lemma forEach_self (fuel : nat) :
  forall (i : nat) (r : Emission Data Host Error) (sd : SetData),
    NoDup (setValues sd) ->
    length (setAt (fst (world r)) a) = length sd ->
    drop i (setAt (fst (world r)) a) = drop i sd ->
    length sd - i < fuel ->
    exists r',
      forEach call fuel a i event data r = Some r'
      /\ map fst (calls r')
         = map fst (calls r) ++ map (fun c => (c, data)) (setValues (drop i sd)).
Proof using Hself.
  induction fuel as [| fuel IH]; intros i r sd Hnd Hlen Hdrop Hfuel; [lia |].
  cbn [forEach].
  assert (Hi : setAt (fst (world r)) a !! i = sd !! i).
  { pose proof (lookup_drop (setAt (fst (world r)) a) i 0) as H1.
    pose proof (lookup_drop sd i 0) as H2.
    rewrite Nat.add_0_r in H1, H2.
    exact (eq_trans (eq_sym H1) (eq_trans (f_equal (fun l => l !! 0) Hdrop) H2)). }
  match goal with
  | |- context [match ?t with _ => _ end] =>
      replace t with (sd !! i) by (symmetry; exact Hi)
  end.
  destruct (sd !! i) as [s |] eqn:Es.
  - pose proof Hdrop as Hdrop'.
    rewrite (drop_S _ _ _ Hi), (drop_S _ _ _ Es) in Hdrop'.
    injection Hdrop' as Hdrop'.
    assert (Hi' : i < length sd) by (apply lookup_lt_is_Some; eauto).
    rewrite (drop_S _ _ _ Es).
    destruct s as [cb |].
    + assert (Hcb : ~ In cb (setValues (drop (S i) sd))).
      { rewrite <- (take_drop i sd), (drop_S _ _ _ Es), setValues_app in Hnd.
        apply NoDup_app in Hnd. destruct Hnd as (_ & _ & Hnd).
        cbn in Hnd. apply NoDup_cons in Hnd. destruct Hnd as [Hnin _].
        intros Hin. apply Hnin, list_elem_of_In, Hin. }
      destruct (IH (S i) (invoke call event data cb r) sd Hnd) as (r' & Hrun & Hcalls).
      * unfold invoke. pose proof (Hself cb data (world r)) as H.
        destruct (call cb data (world r)) as [w c]. cbn [world fst] in *.
        destruct H as [-> | ->]; [exact Hlen |]. now rewrite setDelete_length.
      * unfold invoke. pose proof (Hself cb data (world r)) as H.
        destruct (call cb data (world r)) as [w c]. cbn [world fst] in *.
        destruct H as [-> | ->]; [exact Hdrop' |].
        rewrite setDelete_drop, Hdrop'. now apply setDelete_absent.
      * lia.
      * exists r'. split; [exact Hrun |]. rewrite Hcalls.
        unfold invoke. destruct (call cb data (world r)) as [w c]. cbn [calls].
        rewrite map_app, <- app_assoc. reflexivity.
    + destruct (IH (S i) r sd Hnd Hlen Hdrop') as (r' & Hrun & Hcalls); [lia |].
      exists r'. split; [exact Hrun |]. exact Hcalls.
  - exists r. split; [reflexivity |].
    rewrite drop_ge by (apply lookup_ge_None; exact Es). cbn. now rewrite app_nil_r.
Qed.

End emitter_self.

Lemma alter_ge {A : Type} (f : A -> A) (a : nat) (l : list A) :
  length l <= a -> alter f a l = l.
Proof.
  revert a. induction l as [| x l IH]; intros a Ha; [reflexivity |].
  destruct a as [| a]; cbn in *; [lia |]. f_equal. apply IH. lia.
Qed.

Lemma once_call_self (a : nat) : unsubscribesSelfOnly once_call a.
Proof.
  intros callback data [em host]. unfold once_call, TourEventEmitter.off. cbn [fst snd].
  destruct (TourEventEmitter.listeners em TourEventType.start) as [a' |]; [| now left].
  destruct (Nat.lt_ge_cases a' (length (TourEventEmitter.heap em))) as [Hlt | Hge].
  - rewrite (setAt_alter _ em a' a Hlt).
    destruct (Nat.eqb_spec a' a) as [-> | _]; [now right | now left].
  - left. unfold TourEventEmitter.setAt. cbn [TourEventEmitter.heap].
    now rewrite (alter_ge (TourEventEmitter.setDelete callback) a'
                   (TourEventEmitter.heap em) Hge).
Qed.

(** X24. When no callback does more to the subscriptions of the event than
    unsubscribe itself, an emission calls every callback that was
    subscribed when it began, once and in the order of subscription: a
    listener that removes itself while it runs makes no other listener be
    skipped. *)
Theorem emit_with_self_unsubscribing {Data Host Error : Type}
    (call : TourEventEmitter.Callback -> Data -> TourEventEmitter.t * Host ->
            (TourEventEmitter.t * Host) * TourEventEmitter.Completion Error)
    (event : TourEventType.t) (data : Data) (w : TourEventEmitter.t * Host) (a : nat) :
  emitterOk (fst w) ->
  TourEventEmitter.listeners (fst w) event = Some a ->
  unsubscribesSelfOnly call a ->
  exists r,
    TourEventEmitter.emit call (S (length (TourEventEmitter.setAt (fst w) a))) event data w
    = Some r
    /\ map fst (TourEventEmitter.calls r)
       = map (fun callback => (callback, data)) (TourEventEmitter.subscribed event (fst w)).
Proof.
  intros Hok Ha Hself. unfold TourEventEmitter.emit, TourEventEmitter.subscribed.
  rewrite Ha. destruct (Hok event a Ha) as (_ & Hnd & _).
  destruct (forEach_self call event data a Hself
              (S (length (TourEventEmitter.setAt (fst w) a))) 0
              (TourEventEmitter.mkEmission w [] [])
              (TourEventEmitter.setAt (fst w) a) Hnd eq_refl eq_refl)
    as (r & Hrun & Hcalls); [lia |].
  exists r. split; [exact Hrun |]. rewrite Hcalls, drop_0. reflexivity.
Qed.

Lemma emit_with_self_unsubscribing_witness :
  exists r : TourEventEmitter.Emission string nat string,
    TourEventEmitter.emit once_call 4 TourEventType.start "t"
      (TourEventEmitter.example_emitter, 0) = Some r
    /\ map fst (TourEventEmitter.calls r) = [(5, "t"); (7, "t"); (9, "t")].
Proof.
  apply (emit_with_self_unsubscribing once_call TourEventType.start "t"
           (TourEventEmitter.example_emitter, 0) 0).
  - exact (emitterAfter_ok [em_on TourEventType.start 5; em_on TourEventType.start 7;
                            em_on TourEventType.start 9]).
  - reflexivity.
  - apply once_call_self.
Defined.
